(** * plasma-utils: the Plasma Merkle sum tree

    A shallow embedding of [src/sum-tree/sum-tree.js] (class [MerkleSumTree])
    and of its subclass [PlasmaMerkleSumTree] (leaf parsing, proof generation
    and proof checking), followed by the properties of the specification that
    were checked against them.

    Conventions.
    - Hex strings are modelled by the bytes they denote ([list byte]); the
      ['0x'] prefixes the source prepends before hashing are notation only.
    - [bn.js] numbers are unbounded integers ([Z]).
    - A JavaScript call either returns or throws: [result].
    - A JavaScript value that may be [undefined] is an [option]. *)

From Stdlib Require Import ZArith List Lia Bool Ascii.
From Stdlib Require Import Strings.Byte.
From Stdlib Require Import Sorting.Sorted Sorting.Permutation.
From Equations Require Import Equations.
Import ListNotations.
Local Open Scope Z_scope.

(** ** Outcomes of a JavaScript call *)

Inductive error : Type :=
| InvalidLeafIndex   (* [throw new Error('Invalid leaf index')] *)
| TypeError.         (* a property read on [undefined] *)

Inductive result (A : Type) : Type :=
| Ok (a : A)
| Throw (e : error).
Arguments Ok {A} a.
Arguments Throw {A} e.

Definition bind {A B} (m : result A) (k : A -> result B) : result B :=
  match m with
  | Ok a => k a
  | Throw e => Throw e
  end.

Notation "x <- m ;; k" := (bind m (fun x => k))
  (at level 61, m at next level, right associativity).

(** [arr[i]] on a JavaScript array: [undefined] outside the array. *)
Definition js_index {A} (arr : list A) (i : Z) : option A :=
  if i <? 0 then None else nth_error arr (Z.to_nat i).

(** ** [bn.js] conversions used by the tree *)

Module BN.

Definition byte_to_Z (b : byte) : Z := Z.of_N (Byte.to_N b).

Definition byte_of_Z (z : Z) : byte :=
  match Byte.of_N (Z.to_N (z mod 256)) with
  | Some b => b
  | None => x00
  end.

Fixpoint le_value (l : list byte) : Z :=
  match l with
  | [] => 0
  | b :: r => byte_to_Z b + 256 * le_value r
  end.

(** [new BigNum(buffer)]: the big-endian unsigned value of a buffer. *)
Definition of_bytes (l : list byte) : Z := le_value (rev l).

Fixpoint le_bytes (len : nat) (z : Z) : list byte :=
  match len with
  | O => []
  | S k => byte_of_Z z :: le_bytes k (z / 256)
  end.

(** [z.toString(16, 2 * len)] read as bytes: the big-endian, zero-padded
    [len]-byte form of [z].  It is exact for [0 <= z < 256 ^ len], which is
    the range of a [len]-byte field. *)
Definition to_bytes (len : nat) (z : Z) : list byte := rev (le_bytes len z).

Fixpoint pos_digits_lsb (p : positive) : list ascii :=
  match p with
  | xH => ["1"%char]
  | xO q => "0"%char :: pos_digits_lsb q
  | xI q => "1"%char :: pos_digits_lsb q
  end.

(** Number of characters ['0'] that [toString] prepends so that the length
    becomes a multiple of [padding]. *)
Definition pad_count (len padding : nat) : nat :=
  ((padding - len mod padding) mod padding)%nat.

(** [z.toString(2, padding)]: binary digits, most significant first,
    left-padded with ['0'] up to a multiple of [padding] ([padding | 0 || 1]
    in bn.js, so a padding of 0 counts as 1); a negative number gets ['-']
    in front of its padded digits. *)
Definition toString2 (z : Z) (padding : nat) : list ascii :=
  let padding := match padding with O => 1%nat | _ => padding end in
  let digits :=
    match z with
    | Z0 => ["0"%char]
    | Zpos p | Zneg p => rev (pos_digits_lsb p)
    end in
  let padded := repeat "0"%char (pad_count (length digits) padding) ++ digits in
  match z with
  | Zneg _ => "-"%char :: padded
  | _ => padded
  end.

End BN.

(** ** JavaScript [Number] conversion of an integer

    [a.start - b.start] in the sort comparator applies the arithmetic [-] to
    two [BigNum] objects: each is converted to a primitive through
    [toString()] (decimal digits) and then to a [Number], that is to the
    nearest double, ties to even.  Doubles carry 53 significant bits. *)

Module JSNumber.

Definition round53 (n : Z) : Z :=
  let drop := Z.log2 n - 52 in
  if drop <=? 0 then n
  else
    let q := Z.shiftr n drop in
    let r := Z.land n (Z.ones drop) in
    let half := Z.shiftl 1 (drop - 1) in
    let q' :=
      if r <? half then q
      else if half <? r then q + 1
      else if Z.even q then q else q + 1 in
    Z.shiftl q' drop.

(** The integer a double holds after [Number(decimalString)]; finite for
    every magnitude below [2 ^ 1024]. *)
Definition toNumber (z : Z) : Z :=
  match z with
  | Z0 => 0
  | Zpos _ => round53 z
  | Zneg p => - round53 (Zpos p)
  end.

End JSNumber.

(** ** Data model *)

(** Modelled from the spec: [merkle-tree-node.js] is not among the sources.
    A node is a pair of a 32-byte digest and a sum; its [data] is the 48-byte
    record "32-byte digest concatenated with a 16-byte big-endian unsigned
    integer sum", which is what the tests read from [tree.root().data] and
    what [checkTransferProof] slices at offsets 32 and 48. *)
Record MerkleTreeNode : Type := mkNode {
  digest : list byte;
  sum : Z
}.

Definition data (n : MerkleTreeNode) : list byte :=
  digest n ++ BN.to_bytes 16 (sum n).

(** Modelled from the spec: [constants.js] is not among the sources;
    [MIN_COIN_ID] is 0 and [MAX_COIN_ID] is [2^128 - 1] (the tests read
    sixteen [ff] bytes as the root sum). *)
Definition MIN_COIN_ID : Z := 0.
Definition MAX_COIN_ID : Z := 2 ^ 128 - 1.

(** A raw leaf of the generic tree: [{ data, sum }]. *)
Record RawLeaf : Type := mkRawLeaf {
  leaf_data : list byte;
  leaf_sum : Z
}.

(** The decoded fields of a transfer that the tree reads. *)
Record Transfer : Type := mkTransfer {
  start : Z;
  end_ : Z
}.

(** A transaction: its transfers and its encoding. *)
Record Transaction : Type := mkTransaction {
  transfers : list Transfer;
  encoded : list byte
}.

(** A decoded signature [{ v, r, s }]. *)
Record Signature : Type := mkSignature {
  sig_v : Z;
  sig_r : Z;
  sig_s : Z
}.

(** The arguments of a [TransferProof].  An element of [inclusionProof] is the
    48-byte [data] of a sibling, or [None] where the generator pushed
    [undefined]. *)
Record TransferProof : Type := mkTransferProof {
  parsedSum : Z;
  leafIndex : Z;
  inclusionProof : list (option (list byte));
  signature : Signature
}.

(** A tree: the raw leaves it was built from and its levels, bottom first. *)
Record Tree (L : Type) : Type := mkTree {
  leaves : list L;
  levels : list (list MerkleTreeNode)
}.
Arguments mkTree {L} leaves levels.
Arguments leaves {L} t.
Arguments levels {L} t.

(** ** The generic sum tree ([sum-tree.js]) *)

Section SumTree.

(** [hash]: [web3.utils.soliditySha3], a 32-byte digest of a byte string. *)
Variable hash : list byte -> list byte.

Definition zero_digest : list byte := repeat x00 32.

(** [emptyLeaf ()] *)
Definition emptyLeaf : MerkleTreeNode := mkNode zero_digest 0.

(** [parent (left, right)] *)
Definition parent (lft rgt : MerkleTreeNode) : MerkleTreeNode :=
  mkNode (hash (data lft ++ data rgt)) (sum lft + sum rgt).

(** The [for (let i = 0; i < children.length; i += 2)] loop of [generate]:
    one parent per pair, the last child paired with [emptyLeaf ()] when it
    has no right neighbour. *)
Fixpoint parents_of (children : list MerkleTreeNode) : list MerkleTreeNode :=
  match children with
  | [] => []
  | [lft] => [parent lft emptyLeaf]
  | lft :: rgt :: rest => parent lft rgt :: parents_of rest
  end.

(** [generate (children, levels)].  The array [levels] is shared with the
    caller and grows by [push]; the function is modelled as returning the
    pair of its return value and of the final contents of that array.  The
    value returned by the recursive call is dropped by the source, only its
    effect on [levels] is kept. *)
Equations generate (children : list MerkleTreeNode)
          (levels : list (list MerkleTreeNode))
  : list (list MerkleTreeNode) * list (list MerkleTreeNode)
  by wf (length children) lt :=
generate children levels with le_lt_dec (length children) 1 := {
  | left _ => ([children], levels)
  | right _ =>
      let parents := parents_of children in
      let levels := levels ++ [parents] in
      let after := snd (generate parents levels) in
      (after, after) }.
Next Obligation.
  assert (Hhalf : forall n l, (length l <= n)%nat ->
                  (2 * length (parents_of l) <= S (length l))%nat).
  { induction n as [|n IH]; intros [|x [|y rest]] Hn; cbn [parents_of length] in *;
      try lia.
    specialize (IH rest). lia. }
  specialize (Hhalf _ children (le_n _)). lia.
Qed.

(** [parseLeaves (leaves)] of the base class. *)
Definition base_parseLeaves (leaves : list RawLeaf)
  : result (list MerkleTreeNode) :=
  Ok (map (fun leaf => mkNode (hash (leaf_data leaf)) (leaf_sum leaf)) leaves).

(** [constructor (leaves)], with the [parseLeaves] of the class that is
    instantiated; [None] is a missing argument ([!leaves]; an array, even
    an empty one, is truthy). *)
Definition MerkleSumTree {L : Type}
           (parseLeaves : list L -> result (list MerkleTreeNode))
           (leaves : option (list L)) : result (Tree L) :=
  match leaves with
  | None => Ok (mkTree [] (fst (generate [] [[]])))
  | Some leaves =>
      bottom <- parseLeaves leaves ;;
      Ok (mkTree leaves (fst (generate bottom [bottom])))
  end.

(** [root ()]: [this.levels[this.levels.length - 1][0]]. *)
Definition root {L : Type} (t : Tree L) : result (option MerkleTreeNode) :=
  match js_index (levels t) (Z.of_nat (length (levels t)) - 1) with
  | None => Throw TypeError
  | Some top => Ok (js_index top 0)
  end.

(** ** The Plasma subclass *)

(** What [parseLeaves] extracts from a transfer of a transaction. *)
Record ParsedTransfer : Type := mkParsed {
  p_start : Z;
  p_end : Z;
  p_encoded : list byte
}.

(** The [reduce] of [parseLeaves]: the transfers of all transactions, in
    order, each with the encoding of its transaction. *)
Definition flatten_transfers (leaves : list Transaction) : list ParsedTransfer :=
  fold_left
    (fun prev curr =>
       prev ++ map (fun transfer =>
                      mkParsed (start transfer) (end_ transfer) (encoded curr))
                   (transfers curr))
    leaves [].

(** [(a, b) => a.start - b.start].  Both operands go through [Number]; the
    difference of two doubles has the sign of the exact difference, and the
    sort reads nothing but the sign. *)
Definition comparator (a b : ParsedTransfer) : Z :=
  JSNumber.toNumber (p_start a) - JSNumber.toNumber (p_start b).

(** [Array.prototype.sort (comparator)]: a stable sort. *)
Fixpoint sort_insert (x : ParsedTransfer) (sorted : list ParsedTransfer) :=
  match sorted with
  | [] => [x]
  | y :: rest =>
      if comparator x y <=? 0 then x :: sorted else y :: sort_insert x rest
  end.

Definition js_sort (l : list ParsedTransfer) : list ParsedTransfer :=
  fold_right sort_insert [] l.

(** The value of [leaves] after the first statement of [parseLeaves]. *)
Definition sorted_transfers (leaves : list Transaction) : list ParsedTransfer :=
  js_sort (flatten_transfers leaves).

(** The loop [for (let i = 1; i < leaves.length - 1; i++)], entered with the
    leaves from index [i] on. *)
Fixpoint interior_nodes (from_i : list ParsedTransfer) : list MerkleTreeNode :=
  match from_i with
  | curr :: ((next :: _) as rest) =>
      mkNode (hash (p_encoded curr)) (p_start next - p_start curr)
      :: interior_nodes rest
  | _ => []
  end.

Definition read {A} (o : option A) : result A :=
  match o with
  | Some a => Ok a
  | None => Throw TypeError
  end.

(** [parseLeaves (leaves)] of [PlasmaMerkleSumTree]. *)
Definition parseLeaves (txs : list Transaction) : result (list MerkleTreeNode) :=
  let leaves := sorted_transfers txs in
  if (length leaves =? 1)%nat then
    first <- read (js_index leaves 0) ;;
    Ok [mkNode (hash (p_encoded first)) MAX_COIN_ID]
  else
    let parsed := interior_nodes (tl leaves) in
    first <- read (js_index leaves 0) ;;
    second <- read (js_index leaves 1) ;;
    let parsed :=
      mkNode (hash (p_encoded first)) (p_start second - MIN_COIN_ID) :: parsed in
    last <- read (js_index leaves (Z.of_nat (length leaves) - 1)) ;;
    Ok (parsed ++ [mkNode (hash (p_encoded last)) (MAX_COIN_ID - p_start last)]).

(** [new PlasmaMerkleSumTree (leaves)] *)
Definition PlasmaMerkleSumTree (leaves : option (list Transaction))
  : result (Tree Transaction) :=
  MerkleSumTree parseLeaves leaves.

(** ** Proof generation *)

(** The stub signature every transfer proof carries. *)
Definition stub_signature : Signature :=
  mkSignature 0x1b
    0xd693b532a80fed6392b428604171fb32fdbf953728a3a7ecc7d4062b1652c042
    0x24e9c602ac800b983b035700a14b23f78a253ab762deab5dc27e3555a750b354.

(** What the variable [node] of the proof loops can hold: a tree node, or the
    string [emptyLeaf ().data] assigned when the sibling is [undefined]. *)
Inductive node_or_string : Type :=
| IsNode (n : MerkleTreeNode)
| IsString (s : list byte).

(** [node.data]: a string has no property [data]. *)
Definition data_of (node : node_or_string) : option (list byte) :=
  match node with
  | IsNode n => Some (data n)
  | IsString _ => None
  end.

(** [index + (index % 2 === 0 ? 1 : -1)] *)
Definition sibling_index (index : Z) : Z :=
  index + (if Z.rem index 2 =? 0 then 1 else -1).

(** The loop [for (let i = 0; i < this.levels.length - 1; i++)] shared by
    [getInclusionProof] and [getTransferProof], entered with the levels from
    [i] on (the top level excluded) and the current [siblingIndex]; it
    returns what is pushed on [branch]. *)
Fixpoint branch_loop (lvls : list (list MerkleTreeNode)) (siblingIndex : Z)
  : list (option (list byte)) :=
  match lvls with
  | [] => []
  | level :: above =>
      let node :=
        match js_index level siblingIndex with
        | Some n => IsNode n
        | None => IsString (data emptyLeaf)
        end in
      let pushed := data_of node in
      let parentIndex := if siblingIndex =? 0 then 0 else siblingIndex / 2 in
      pushed :: branch_loop above (sibling_index parentIndex)
  end.

(** The guard [index >= this.levels[0].length || index < 0], followed by the
    read of the leaf at [index]. *)
Definition leaf_at {L : Type} (t : Tree L) (index : Z) : result MerkleTreeNode :=
  level0 <- read (js_index (levels t) 0) ;;
  if (index >=? Z.of_nat (length level0)) || (index <? 0)
  then Throw InvalidLeafIndex
  else read (js_index level0 index).

(** [getInclusionProof (index)] *)
Definition getInclusionProof {L : Type} (t : Tree L) (index : Z)
  : result (list (option (list byte))) :=
  leaf <- leaf_at t index ;;
  let branch := [Some (data (mkNode zero_digest (sum leaf)))] in
  Ok (branch ++ branch_loop (removelast (levels t)) (sibling_index index)).

(** [getTransferProof (leafIndex)]; [new TransferProof ({...})] keeps the
    arguments it is given. *)
Definition getTransferProof {L : Type} (t : Tree L) (leafIndex : Z)
  : result TransferProof :=
  leaf <- leaf_at t leafIndex ;;
  let parsedSum := sum leaf in
  let branch := branch_loop (removelast (levels t)) (sibling_index leafIndex) in
  Ok (mkTransferProof parsedSum leafIndex branch stub_signature).

(** ** Proof checking *)

(** [checkSignature (transactionHash, signature)] *)
Definition checkSignature (transactionHash : list byte) (sig : Signature) : bool :=
  true.

(** The sibling rebuilt from its 48 bytes: bytes 0 to 32 printed back as a
    32-byte digest, bytes 32 to 48 read as the sum. *)
Definition decode_sibling (encodedSibling : list byte) : MerkleTreeNode :=
  mkNode (BN.to_bytes 32 (BN.of_bytes (firstn 32 encodedSibling)))
         (BN.of_bytes (firstn 16 (skipn 32 encodedSibling))).

(** [path[i] === '0'] *)
Definition path_is_zero (path : list ascii) (i : nat) : bool :=
  match nth_error path i with
  | Some c => Ascii.eqb c "0"%char
  | None => false
  end.

(** The state of the verification loop. *)
Record check_state : Type := mkState {
  computedNode : MerkleTreeNode;
  leftSum : Z;
  rightSum : Z
}.

(** The loop [for (let i = 0; i < inclusionProof.length; i++)] of
    [checkTransferProof], entered at index [i] with the elements from [i] on.
    [rightSum.add (sibling.sum)] and [leftSum.add (sibling.sum)] build a new
    number and leave their receiver as it was: the value is computed and
    dropped. *)
Fixpoint check_loop (path : list ascii) (i : nat)
         (rest : list (option (list byte))) (st : check_state)
  : result check_state :=
  match rest with
  | [] => Ok st
  | encodedSibling :: rest' =>
      buffer <- read encodedSibling ;;
      let sibling := decode_sibling buffer in
      if path_is_zero path i then
        let computed := parent (computedNode st) sibling in
        let _ := rightSum st + sum sibling in
        check_loop path (S i) rest' (mkState computed (leftSum st) (rightSum st))
      else
        let computed := parent sibling (computedNode st) in
        let _ := leftSum st + sum sibling in
        check_loop path (S i) rest' (mkState computed (leftSum st) (rightSum st))
  end.

Definition bytes_eqb (a b : list byte) : bool :=
  if list_eq_dec Byte.byte_eq_dec a b then true else false.

(** [checkTransferProof (transaction, transferIndex, transferProof, root)] on
    decoded arguments. *)
Definition checkTransferProof (transaction : Transaction) (transferIndex : Z)
           (transferProof : TransferProof) (root : list byte) : result bool :=
  let leafIndex := leafIndex transferProof in
  let inclusionProof := inclusionProof transferProof in
  let path := rev (BN.toString2 leafIndex (length inclusionProof)) in
  let transactionHash := hash (encoded transaction) in
  let signature := signature transferProof in
  if negb (checkSignature transactionHash signature) then Ok false
  else
    let initial := mkNode transactionHash (parsedSum transferProof) in
    final <- check_loop path 0 inclusionProof (mkState initial 0 0) ;;
    let rootSum := sum (computedNode final) in
    transfer <- read (js_index (transfers transaction) transferIndex) ;;
    let validSum :=
      (start transfer >=? leftSum final)
      && (end_ transfer <=? rootSum - rightSum final) in
    let validRoot := bytes_eqb (data (computedNode final)) root in
    Ok (validSum && validRoot).

(** [transferProofs.every ((transferProof, transferIndex) => ...)], entered
    at index [transferIndex] with the proofs from there on. *)
Fixpoint every_proof (transaction : Transaction) (root : list byte)
         (transferIndex : nat) (transferProofs : list TransferProof)
  : result bool :=
  match transferProofs with
  | [] => Ok true
  | transferProof :: rest =>
      valid <- checkTransferProof transaction (Z.of_nat transferIndex)
                                  transferProof root ;;
      if valid then every_proof transaction root (S transferIndex) rest
      else Ok false
  end.

(** [checkTransactionProof (transaction, transactionProof, root)] *)
Definition checkTransactionProof (transaction : Transaction)
           (transferProofs : list TransferProof) (root : list byte) : result bool :=
  every_proof transaction root 0 transferProofs.

End SumTree.

(** ** Transaction proofs *)

(** [arr.map (f)] with a callback that may throw: the first exception ends
    the traversal. *)
Fixpoint map_result {A B : Type} (f : A -> result B) (arr : list A)
  : result (list B) :=
  match arr with
  | [] => Ok []
  | x :: rest =>
      y <- f x ;;
      ys <- map_result f rest ;;
      Ok (y :: ys)
  end.

(** The loop [for (let leafIndex in this.leaves)] of [getTransactionProof].
    [this.leaves[leafIndex] === transaction] compares object identities,
    which the record values do not carry: [same_object leafIndex] stands for
    the outcome of that comparison at position [leafIndex] of [this.leaves].
    The positions are visited in increasing order. *)
Definition transactionLeafIndices {L : Type} (t : Tree L)
           (same_object : nat -> bool) : list Z :=
  map Z.of_nat (filter same_object (seq 0 (length (leaves t)))).

(** [getTransactionProof (transaction)]: the decoded transfer proofs of the
    positions found. *)
Definition getTransactionProof {L : Type} (t : Tree L)
           (same_object : nat -> bool) : result (list TransferProof) :=
  map_result (getTransferProof t) (transactionLeafIndices t same_object).

(** ** The helpers of the tests ([tx-utils]) *)

Module TxUtils.

(** [ToInt32]: the signed 32-bit integer a bitwise operator reads from an
    integral [Number]. *)
Definition toInt32 (x : Z) : Z :=
  let m := x mod 2 ^ 32 in
  if m <? 2 ^ 31 then m else m - 2 ^ 32.

(** One digit of [toString (16)]. *)
Definition hex_digit (d : Z) : ascii :=
  if d <? 10 then ascii_of_nat (48 + Z.to_nat d)
  else ascii_of_nat (87 + Z.to_nat d).

Fixpoint hex_digits_lsb (count : nat) (z : Z) : list ascii :=
  match count with
  | O => []
  | S count' =>
      if z <? 16 then [hex_digit z]
      else hex_digit (z mod 16) :: hex_digits_lsb count' (z / 16)
  end.

(** The number of digits of a positive integer in base 16. *)
Definition hex_length (z : Z) : nat := S (Z.to_nat (Z.log2 z / 4)).

(** [x.toString (16)] on an integer. *)
Definition toString16 (x : Z) : list ascii :=
  match x with
  | Z0 => ["0"%char]
  | Zpos _ => rev (hex_digits_lsb (hex_length x) x)
  | Zneg p => "-"%char :: rev (hex_digits_lsb (hex_length (Zpos p)) (Zpos p))
  end.

(** [toUpperCase ()], character by character. *)
Definition upper (c : ascii) : ascii :=
  let n := nat_of_ascii c in
  if ((97 <=? n) && (n <=? 122))%nat then ascii_of_nat (n - 32) else c.

(** [s.slice (-16)]: the last 16 characters, the whole string when it has
    fewer. *)
Definition slice_last_16 (s : list ascii) : list ascii :=
  skipn (length s - 16) s.

(** [int32ToHex (x)] *)
Definition int32ToHex (x : Z) : list ascii :=
  let x := toInt32 (Z.land (toInt32 x) (toInt32 0xFFFFFFFF)) in
  let hex := map upper (toString16 x) in
  slice_last_16 (repeat "0"%char 16 ++ hex).

(** [getSequentialTxs (n)]: transaction [i] has the one transfer from
    [i * 10] to [(i + 1) * 10]; [encode] stands for the encoding that the
    [Transaction] model computes from the arguments. *)
Definition getSequentialTxs (encode : list Transfer -> list byte) (n : nat)
  : list Transaction :=
  map (fun i =>
         let transfers :=
           [mkTransfer (Z.of_nat i * 10) ((Z.of_nat i + 1) * 10)] in
         mkTransaction transfers (encode transfers))
      (seq 0 n).

End TxUtils.

(** ** Vocabulary of the properties *)

Section Vocabulary.

Variable hash : list byte -> list byte.

(** [level_chain prev ups]: [ups] are the levels that [generate] stacks above
    the level [prev], each the [parents_of] of the one below, up to the first
    level of at most one node. *)
Fixpoint level_chain (prev : list MerkleTreeNode)
         (ups : list (list MerkleTreeNode)) : Prop :=
  match ups with
  | [] => (length prev <= 1)%nat
  | up :: rest =>
      (1 < length prev)%nat /\ up = parents_of hash prev /\ level_chain up rest
  end.

(** The sum of the sums of a level. *)
Definition total (level : list MerkleTreeNode) : Z :=
  fold_right (fun n acc => sum n + acc) 0 level.

(** The verification loop as the specification words it: the sum of the
    sibling is accumulated into [rightSum] when the path bit is 0 and into
    [leftSum] when it is 1. *)
Fixpoint check_loop_accumulating (path : list ascii) (i : nat)
         (rest : list (option (list byte))) (st : check_state)
  : result check_state :=
  match rest with
  | [] => Ok st
  | encodedSibling :: rest' =>
      buffer <- read encodedSibling ;;
      let sibling := decode_sibling buffer in
      if path_is_zero path i then
        check_loop_accumulating path (S i) rest'
          (mkState (parent hash (computedNode st) sibling)
                   (leftSum st) (rightSum st + sum sibling))
      else
        check_loop_accumulating path (S i) rest'
          (mkState (parent hash sibling (computedNode st))
                   (leftSum st + sum sibling) (rightSum st))
  end.

(** [checkTransferProof] with the accumulating loop; everything else as in
    the source. *)
Definition checkTransferProof_accumulating (transaction : Transaction)
           (transferIndex : Z) (transferProof : TransferProof)
           (root : list byte) : result bool :=
  let path :=
    rev (BN.toString2 (leafIndex transferProof)
                      (length (inclusionProof transferProof))) in
  let initial :=
    mkNode (hash (encoded transaction)) (parsedSum transferProof) in
  final <- check_loop_accumulating path 0 (inclusionProof transferProof)
                                   (mkState initial 0 0) ;;
  let rootSum := sum (computedNode final) in
  transfer <- read (js_index (transfers transaction) transferIndex) ;;
  Ok ((start transfer >=? leftSum final)
      && (end_ transfer <=? rootSum - rightSum final)
      && bytes_eqb (data (computedNode final)) root).

End Vocabulary.

(** A stand-in digest with a 32-byte output, to run the model on examples. *)
Definition example_hash (l : list byte) : list byte :=
  BN.to_bytes 32 (BN.of_bytes l * 31 + 7).

(** The three transactions of the construction tests, with stand-ins for
    their encodings. *)
Definition tx1 : Transaction := mkTransaction [mkTransfer 2 3] [x01].
Definition tx2 : Transaction := mkTransaction [mkTransfer 6 7] [x02].
Definition tx3 : Transaction := mkTransaction [mkTransfer 100 108] [x03].

(** The tree of these three transactions, its bottom level, and a list of
    raw leaves for the generic tree. *)
Definition example_tree : Tree Transaction :=
  match PlasmaMerkleSumTree example_hash (Some [tx1; tx2; tx3]) with
  | Ok t => t
  | Throw _ => mkTree [] []
  end.

Definition example_bottom : list MerkleTreeNode :=
  [mkNode (example_hash [x01]) 6;
   mkNode (example_hash [x02]) 94;
   mkNode (example_hash [x03]) (MAX_COIN_ID - 100)].

Definition example_leaves : list RawLeaf :=
  [mkRawLeaf [x01] 5; mkRawLeaf [x02] 7; mkRawLeaf [x03] 9].

Definition example_parsed : list MerkleTreeNode :=
  [mkNode (example_hash [x01]) 5;
   mkNode (example_hash [x02]) 7;
   mkNode (example_hash [x03]) 9].

(** The tree of the first two transactions of the tests. *)
Definition example_pair_tree : Tree Transaction :=
  match PlasmaMerkleSumTree example_hash (Some [tx1; tx2]) with
  | Ok t => t
  | Throw _ => mkTree [] []
  end.

(** The [Number] the comparator reads for a leaf. *)
Definition start_number (a : ParsedTransfer) : Z :=
  JSNumber.toNumber (p_start a).

(** The order the comparator induces on leaves. *)
Definition number_le (a b : ParsedTransfer) : Prop :=
  start_number a <= start_number b.

(** A node whose record is a faithful 48 bytes: a 32-byte digest and a sum
    that fits 16 bytes. *)
Definition node_ok (n : MerkleTreeNode) : Prop :=
  length (digest n) = 32%nat /\ 0 <= sum n < 2 ^ 128.

(** The value of a string of upper-case hexadecimal digits, as
    [parseInt (s, 16)] reads it; [None] when a character is no such digit. *)
Definition hex_value_of (c : ascii) : option Z :=
  let n := nat_of_ascii c in
  if ((48 <=? n) && (n <=? 57))%nat then Some (Z.of_nat n - 48)
  else if ((65 <=? n) && (n <=? 70))%nat then Some (Z.of_nat n - 55)
  else None.

Fixpoint parse_hex_from (acc : Z) (s : list ascii) : option Z :=
  match s with
  | [] => Some acc
  | c :: rest =>
      match hex_value_of c with
      | Some d => parse_hex_from (acc * 16 + d) rest
      | None => None
      end
  end.

Definition parse_hex (s : list ascii) : option Z := parse_hex_from 0 s.

(** The transfer of transaction [i] of [getSequentialTxs], and the leaf
    [parseLeaves] extracts from it. *)
Definition sequential_transfer (i : nat) : Transfer :=
  mkTransfer (Z.of_nat i * 10) ((Z.of_nat i + 1) * 10).

Definition sequential_leaf (encode : list Transfer -> list byte) (i : nat)
  : ParsedTransfer :=
  mkParsed (Z.of_nat i * 10) ((Z.of_nat i + 1) * 10)
           (encode [sequential_transfer i]).

(** The right child used for the parent at position [j]: the node at
    [2 j + 1], or the empty leaf when the level stops before it. *)
Definition right_child (level : list MerkleTreeNode) (j : nat) : MerkleTreeNode :=
  match nth_error level (2 * j + 1) with
  | Some rgt => rgt
  | None => emptyLeaf
  end.

(** * Properties *)

(** ** Byte strings and numbers *)

Module BNFacts.

Lemma byte_to_Z_range (b : byte) : 0 <= BN.byte_to_Z b < 256.
Proof.
  unfold BN.byte_to_Z. generalize (Byte.to_N_bounded b). lia.
Qed.

Lemma byte_of_to_Z (b : byte) (k : Z) : BN.byte_of_Z (BN.byte_to_Z b + 256 * k) = b.
Proof.
  unfold BN.byte_of_Z.
  replace ((BN.byte_to_Z b + 256 * k) mod 256) with (BN.byte_to_Z b).
  - unfold BN.byte_to_Z. rewrite N2Z.id, Byte.of_to_N. reflexivity.
  - generalize (byte_to_Z_range b). intros Hb.
    replace (BN.byte_to_Z b + 256 * k) with (BN.byte_to_Z b + k * 256) by lia.
    rewrite Z.mod_add by lia.
    symmetry. apply Z.mod_small. exact Hb.
Qed.

Lemma byte_to_of_Z (z : Z) : BN.byte_to_Z (BN.byte_of_Z z) = z mod 256.
Proof.
  unfold BN.byte_of_Z, BN.byte_to_Z.
  assert (Hr : 0 <= z mod 256 < 256) by (apply Z.mod_pos_bound; lia).
  destruct (Byte.of_N (Z.to_N (z mod 256))) as [b|] eqn:Hb.
  - apply Byte.to_of_N in Hb. rewrite Hb. lia.
  - apply Byte.of_N_None_iff in Hb. lia.
Qed.

Lemma le_bytes_length (len : nat) (z : Z) : length (BN.le_bytes len z) = len.
Proof.
  revert z. induction len as [|len IH]; intros z; cbn [BN.le_bytes length].
  - reflexivity.
  - rewrite IH. reflexivity.
Qed.

Lemma le_bytes_value (l : list byte) : BN.le_bytes (length l) (BN.le_value l) = l.
Proof.
  induction l as [|b l IH]; cbn [BN.le_bytes BN.le_value length].
  - reflexivity.
  - rewrite byte_of_to_Z. f_equal.
    replace ((BN.byte_to_Z b + 256 * BN.le_value l) / 256) with (BN.le_value l).
    + exact IH.
    + generalize (byte_to_Z_range b). intros Hb.
      replace (BN.byte_to_Z b + 256 * BN.le_value l)
        with (BN.byte_to_Z b + BN.le_value l * 256) by lia.
      rewrite Z.div_add by lia.
      rewrite (Z.div_small (BN.byte_to_Z b)) by exact Hb. lia.
Qed.

Lemma le_value_bytes (len : nat) (z : Z) :
  BN.le_value (BN.le_bytes len z) = z mod 256 ^ Z.of_nat len.
Proof.
  revert z. induction len as [|len IH]; intros z.
  - cbn [BN.le_bytes BN.le_value]. rewrite Z.pow_0_r, Z.mod_1_r. reflexivity.
  - cbn [BN.le_bytes BN.le_value]. rewrite byte_to_of_Z, IH.
    rewrite Nat2Z.inj_succ, Z.pow_succ_r by lia.
    rewrite Z.rem_mul_r by lia. reflexivity.
Qed.

Lemma to_bytes_length (len : nat) (z : Z) : length (BN.to_bytes len z) = len.
Proof.
  unfold BN.to_bytes. rewrite length_rev. apply le_bytes_length.
Qed.

(** Printing the value of a buffer on as many bytes gives the buffer back. *)
Lemma to_bytes_of_bytes (l : list byte) : BN.to_bytes (length l) (BN.of_bytes l) = l.
Proof.
  unfold BN.to_bytes, BN.of_bytes.
  rewrite <- (length_rev l), le_bytes_value. apply rev_involutive.
Qed.

(** Reading back a number printed on [len] bytes keeps it when it fits. *)
Lemma of_bytes_to_bytes (len : nat) (z : Z) :
  0 <= z < 256 ^ Z.of_nat len -> BN.of_bytes (BN.to_bytes len z) = z.
Proof.
  intros Hz. unfold BN.to_bytes, BN.of_bytes.
  rewrite rev_involutive, le_value_bytes. apply Z.mod_small. exact Hz.
Qed.

End BNFacts.

(** ** Lists *)

Lemma last_cons {A : Type} (l : list A) :
  forall x d : A, last (x :: l) d = last l x.
Proof.
  induction l as [|y l IH]; intros x d.
  - reflexivity.
  - change (last (x :: y :: l) d) with (last (y :: l) d).
    rewrite (IH y d), (IH y x). reflexivity.
Qed.

(** ** The level structure built by [generate] *)

Section Levels.

Variable hash : list byte -> list byte.

Lemma parents_of_length (children : list MerkleTreeNode) :
  length (parents_of hash children) = ((length children + 1) / 2)%nat.
Proof.
  induction children as [children IH] using
    (well_founded_induction (Wf_nat.well_founded_ltof _ (@length _))).
  destruct children as [|l [|r rest]]; try reflexivity.
  cbn [parents_of length]. rewrite (IH rest).
  - replace (S (S (length rest)) + 1)%nat with (length rest + 1 + 1 * 2)%nat by lia.
    rewrite Nat.div_add by lia. lia.
  - unfold Wf_nat.ltof. cbn [length]. lia.
Qed.

Lemma parents_of_total (children : list MerkleTreeNode) :
  total (parents_of hash children) = total children.
Proof.
  induction children as [children IH] using
    (well_founded_induction (Wf_nat.well_founded_ltof _ (@length _))).
  destruct children as [|l [|r rest]]; try reflexivity.
  - cbn. lia.
  - cbn [parents_of total fold_right parent sum].
    change (fold_right (fun n acc => sum n + acc) 0 (parents_of hash rest))
      with (total (parents_of hash rest)).
    rewrite (IH rest).
    + unfold total. lia.
    + unfold Wf_nat.ltof. cbn [length]. lia.
Qed.

(** [generate] appends to [levels] exactly the chain of levels above
    [children], and returns the extended array unless [children] is already
    a top level. *)
Lemma generate_levels (children : list MerkleTreeNode)
      (lvls : list (list MerkleTreeNode)) :
  exists ups,
    level_chain hash children ups
    /\ snd (generate hash children lvls) = lvls ++ ups
    /\ fst (generate hash children lvls) =
       if (length children <=? 1)%nat then [children] else lvls ++ ups.
Proof.
  apply (generate_elim hash (fun children lvls res =>
    exists ups, level_chain hash children ups /\ snd res = lvls ++ ups
      /\ fst res = if (length children <=? 1)%nat then [children] else lvls ++ ups)).
  - intros c Hle lv _. exists []. cbn [level_chain fst snd].
    rewrite app_nil_r. apply Nat.leb_le in Hle as Hb. rewrite Hb. auto.
  - intros c Hlt lv IH _. cbv zeta in IH. destruct IH as (ups & Hchain & Hsnd & _).
    exists (parents_of hash c :: ups). cbn [level_chain fst snd]. cbv zeta.
    rewrite Hsnd, <- app_assoc. cbn [app].
    assert (Hb : (length c <=? 1)%nat = false) by (apply Nat.leb_gt; exact Hlt).
    rewrite Hb. auto.
Qed.

(** The levels of a tree built on the parsed leaves [bottom]. *)
Lemma generate_bottom (bottom : list MerkleTreeNode) :
  exists ups,
    level_chain hash bottom ups
    /\ fst (generate hash bottom [bottom]) = bottom :: ups.
Proof.
  destruct (generate_levels bottom [bottom]) as (ups & Hchain & _ & Hfst).
  exists ups. split; [exact Hchain|]. rewrite Hfst.
  destruct ups as [|up rest]; cbn [level_chain] in Hchain.
  - apply Nat.leb_le in Hchain. rewrite Hchain. reflexivity.
  - destruct Hchain as (Hlt & _). apply Nat.leb_gt in Hlt. rewrite Hlt. reflexivity.
Qed.

Lemma level_chain_steps (ups : list (list MerkleTreeNode)) :
  forall prev k a b,
    level_chain hash prev ups ->
    nth_error (prev :: ups) k = Some a ->
    nth_error (prev :: ups) (S k) = Some b ->
    b = parents_of hash a /\ (1 < length a)%nat.
Proof.
  induction ups as [|up rest IH]; intros prev k a b Hchain Ha Hb.
  - destruct k; cbn in Hb; discriminate.
  - cbn [level_chain] in Hchain. destruct Hchain as (Hlt & Hup & Hrest).
    destruct k as [|k].
    + cbn in Ha, Hb. injection Ha as <-. injection Hb as <-. auto.
    + apply (IH up k a b Hrest); assumption.
Qed.

Lemma level_chain_top (ups : list (list MerkleTreeNode)) :
  forall prev,
    level_chain hash prev ups ->
    (length (last (prev :: ups) []) <= 1)%nat
    /\ (prev <> [] -> last (prev :: ups) [] <> [])
    /\ total (last (prev :: ups) []) = total prev.
Proof.
  induction ups as [|up rest IH]; intros prev Hchain.
  - cbn [last]. cbn [level_chain] in Hchain. auto.
  - cbn [level_chain] in Hchain. destruct Hchain as (Hlt & Hup & Hrest).
    destruct (IH up Hrest) as (Hlen & Hne & Htot).
    change (last (prev :: up :: rest) []) with (last (up :: rest) []).
    split; [exact Hlen|]. split.
    + intros _. apply Hne. intros ->.
      generalize (parents_of_length prev). rewrite <- Hup. cbn [length].
      intros Hp. symmetry in Hp. apply Nat.div_small_iff in Hp; lia.
    + rewrite Htot, Hup. apply parents_of_total.
Qed.

Lemma js_index_top {A} (l : list A) (d : A) :
  l <> [] -> js_index l (Z.of_nat (length l) - 1) = Some (last l d).
Proof.
  intros Hne. unfold js_index.
  destruct l as [|x l]; [contradiction|]. clear Hne.
  replace (Z.of_nat (length (x :: l)) - 1 <? 0) with false
    by (symmetry; apply Z.ltb_ge; cbn [length]; lia).
  replace (Z.to_nat (Z.of_nat (length (x :: l)) - 1)) with (length l)
    by (cbn [length]; lia).
  revert x. induction l as [|y l IH]; intros x.
  - reflexivity.
  - cbn [length nth_error]. rewrite (IH y). reflexivity.
Qed.

End Levels.

(** ** Properties of the generic tree *)

Section GenericTree.

Variable hash : list byte -> list byte.

(** C4 (amended).  The parent of two nodes has as digest the hash of the
    concatenation of the two 48-byte node records (for each child its digest
    followed by its sum on 16 bytes, left child first), and as sum the sum of
    the two sums; [parent] is a total function of its two arguments. *)
Theorem parent_hashes_node_data (lft rgt : MerkleTreeNode) :
  digest (parent hash lft rgt)
  = hash ((digest lft ++ BN.to_bytes 16 (sum lft))
          ++ (digest rgt ++ BN.to_bytes 16 (sum rgt)))
  /\ sum (parent hash lft rgt) = sum lft + sum rgt.
Proof.
  split; reflexivity.
Qed.

Lemma root_of_levels {L : Type} (t : Tree L) (top : list MerkleTreeNode) :
  levels t <> [] -> last (levels t) [] = top -> root t = Ok (js_index top 0).
Proof.
  intros Hne Htop. unfold root.
  rewrite (js_index_top (levels t) [] Hne), Htop. reflexivity.
Qed.

(** C5.  After construction the bottom level is the list of parsed leaves,
    every further level has [ceil (n / 2)] nodes for a level of [n] nodes
    below it, and the top level is a single node, which [root ()] returns;
    when there is no parsed leaf the levels are one empty level and [root ()]
    returns [undefined] without throwing.  The same holds when the
    constructor is called without leaves. *)
Theorem MerkleSumTree_level_structure {L : Type}
        (parse : list L -> result (list MerkleTreeNode))
        (raw : list L) (bottom : list MerkleTreeNode) :
  parse raw = Ok bottom ->
  (exists t,
      MerkleSumTree hash parse (Some raw) = Ok t
      /\ nth_error (levels t) 0 = Some bottom
      /\ (forall k a b,
             nth_error (levels t) k = Some a ->
             nth_error (levels t) (S k) = Some b ->
             length b = ((length a + 1) / 2)%nat)
      /\ (bottom <> [] ->
          exists r, last (levels t) [] = [r] /\ root t = Ok (Some r))
      /\ (bottom = [] -> levels t = [[]] /\ root t = Ok None))
  /\ (exists t0,
         MerkleSumTree hash parse None = Ok t0
         /\ levels t0 = [[]] /\ root t0 = Ok None).
Proof.
  intros Hparse. split.
  - unfold MerkleSumTree. rewrite Hparse. cbn [bind].
    destruct (generate_bottom hash bottom) as (ups & Hchain & Hgen).
    eexists. split; [reflexivity|]. cbn [levels]. rewrite Hgen.
    split; [reflexivity|]. split; [|split].
    + intros k a b Ha Hb.
      destruct (level_chain_steps hash ups bottom k a b Hchain Ha Hb) as (-> & _).
      apply parents_of_length.
    + intros Hne.
      destruct (level_chain_top hash ups bottom Hchain) as (Hlen & Hlast & _).
      specialize (Hlast Hne).
      destruct (last (bottom :: ups) []) as [|r [|r' more]] eqn:Htop;
        [contradiction| |cbn [length] in Hlen; lia].
      exists r. split; [reflexivity|].
      apply (root_of_levels (mkTree raw (bottom :: ups)) [r]).
      * discriminate.
      * exact Htop.
    + intros ->. destruct ups as [|up rest].
      * split; reflexivity.
      * cbn [level_chain length] in Hchain. lia.
  - eexists. split; [reflexivity|].
    destruct (generate_bottom hash []) as (ups & Hchain & Hgen).
    cbn [levels]. rewrite Hgen. destruct ups as [|up rest].
    + split; reflexivity.
    + cbn [level_chain length] in Hchain. lia.
Qed.

End GenericTree.

(** ** Leaf parsing of the Plasma tree *)

Section LeafParsing.

Variable hash : list byte -> list byte.

Lemma flatten_transfers_flat_map (txs : list Transaction) :
  flatten_transfers txs
  = flat_map (fun curr =>
                map (fun transfer =>
                       mkParsed (start transfer) (end_ transfer) (encoded curr))
                    (transfers curr)) txs.
Proof.
  unfold flatten_transfers.
  rewrite <- (app_nil_l (flat_map _ txs)). generalize (@nil ParsedTransfer).
  induction txs as [|tx txs IH]; intros acc; cbn [fold_left flat_map].
  - rewrite app_nil_r. reflexivity.
  - rewrite IH, app_assoc. reflexivity.
Qed.

Lemma sort_insert_In (x y : ParsedTransfer) (l : list ParsedTransfer) :
  In x (sort_insert y l) <-> x = y \/ In x l.
Proof.
  induction l as [|z l IH]; cbn [sort_insert].
  - cbn. intuition auto.
  - destruct (comparator y z <=? 0); cbn [In] in *; rewrite ?IH;
      intuition auto.
Qed.

Lemma js_sort_In (x : ParsedTransfer) (l : list ParsedTransfer) :
  In x (js_sort l) <-> In x l.
Proof.
  unfold js_sort. induction l as [|y l IH]; cbn [fold_right In].
  - tauto.
  - rewrite sort_insert_In, IH. intuition auto.
Qed.

(** Every sorted leaf comes from a transfer of a transaction of the input and
    carries the encoding of that transaction. *)
Lemma sorted_transfers_source (txs : list Transaction) (leaf : ParsedTransfer) :
  In leaf (sorted_transfers txs) ->
  exists tx transfer,
    In tx txs /\ In transfer (transfers tx)
    /\ leaf = mkParsed (start transfer) (end_ transfer) (encoded tx).
Proof.
  unfold sorted_transfers. rewrite js_sort_In, flatten_transfers_flat_map.
  rewrite in_flat_map. intros (tx & Htx & Hin).
  apply in_map_iff in Hin. destruct Hin as (transfer & <- & Htr).
  exists tx, transfer. auto.
Qed.

Lemma interior_nodes_length (l : list ParsedTransfer) :
  length (interior_nodes hash l) = pred (length l).
Proof.
  induction l as [|curr [|next rest] IH]; try reflexivity.
  change (interior_nodes hash (curr :: next :: rest))
    with (mkNode (hash (p_encoded curr)) (p_start next - p_start curr)
          :: interior_nodes hash (next :: rest)).
  cbn [length] in *. rewrite IH. reflexivity.
Qed.

Lemma interior_nodes_nth (l : list ParsedTransfer) :
  forall j curr next,
    nth_error l j = Some curr ->
    nth_error l (S j) = Some next ->
    nth_error (interior_nodes hash l) j
    = Some (mkNode (hash (p_encoded curr)) (p_start next - p_start curr)).
Proof.
  induction l as [|c l IH]; intros j curr next Hc Hn.
  - destruct j; discriminate.
  - destruct l as [|n rest]; [destruct j; discriminate|].
    change (interior_nodes hash (c :: n :: rest))
      with (mkNode (hash (p_encoded c)) (p_start n - p_start c)
            :: interior_nodes hash (n :: rest)).
    destruct j as [|j].
    + cbn in Hc, Hn. injection Hc as <-. injection Hn as <-. reflexivity.
    + cbn [nth_error] in *. apply IH; assumption.
Qed.

(** The sums of the interior nodes telescope. *)
Lemma interior_nodes_total (l : list ParsedTransfer) (first : ParsedTransfer) :
  total (interior_nodes hash (first :: l))
  = p_start (last l first) - p_start first.
Proof.
  revert first. induction l as [|next rest IH]; intros first.
  - cbn. lia.
  - change (interior_nodes hash (first :: next :: rest))
      with (mkNode (hash (p_encoded first)) (p_start next - p_start first)
            :: interior_nodes hash (next :: rest)).
    cbn [total fold_right sum].
    change (fold_right (fun n acc => sum n + acc) 0
                       (interior_nodes hash (next :: rest)))
      with (total (interior_nodes hash (next :: rest))).
    rewrite IH, (last_cons rest next first). lia.
Qed.

(** [parseLeaves] in closed form, by the number of sorted leaves. *)
Lemma parseLeaves_none (txs : list Transaction) :
  sorted_transfers txs = [] -> parseLeaves hash txs = Throw TypeError.
Proof.
  intros Hs. unfold parseLeaves. rewrite Hs. reflexivity.
Qed.

Lemma parseLeaves_one (txs : list Transaction) (only : ParsedTransfer) :
  sorted_transfers txs = [only] ->
  parseLeaves hash txs = Ok [mkNode (hash (p_encoded only)) MAX_COIN_ID].
Proof.
  intros Hs. unfold parseLeaves. rewrite Hs. reflexivity.
Qed.

Lemma parseLeaves_many (txs : list Transaction)
      (first second : ParsedTransfer) (rest : list ParsedTransfer) :
  sorted_transfers txs = first :: second :: rest ->
  parseLeaves hash txs
  = Ok (mkNode (hash (p_encoded first)) (p_start second - MIN_COIN_ID)
        :: interior_nodes hash (second :: rest)
        ++ [mkNode (hash (p_encoded (last rest second)))
                   (MAX_COIN_ID - p_start (last rest second))]).
Proof.
  intros Hs. unfold parseLeaves. rewrite Hs.
  rewrite (js_index_top (first :: second :: rest) first) by discriminate.
  change (js_index (first :: second :: rest) 0) with (Some first).
  change (js_index (first :: second :: rest) 1) with (Some second).
  cbn [length Nat.eqb tl read bind].
  change (last (first :: second :: rest) first)
    with (last (second :: rest) first).
  rewrite (last_cons rest second first). reflexivity.
Qed.

End LeafParsing.

Section LeafSums.

Variable hash : list byte -> list byte.

Lemma nth_error_last {A : Type} (l : list A) (x : A) :
  nth_error (x :: l) (length l) = Some (last l x).
Proof.
  revert x. induction l as [|y l IH]; intros x.
  - reflexivity.
  - cbn [length nth_error]. rewrite IH. symmetry. f_equal. apply last_cons.
Qed.

(** C3.  With [leaves] the sorted transfers and [n >= 1] their number,
    [parseLeaves] returns [n] nodes; the node at position [i] has as digest
    the hash of the encoding of the transaction its transfer comes from; its
    sum is [MAX_COIN_ID] when [n = 1], and for [n > 1] it is
    [leaves[1].start - MIN_COIN_ID] at position 0,
    [MAX_COIN_ID - leaves[n-1].start] at position [n - 1], and
    [leaves[i+1].start - leaves[i].start] at an interior position. *)
Theorem parseLeaves_boundary_rule (txs : list Transaction) :
  let leaves := sorted_transfers txs in
  let n := length leaves in
  (1 <= n)%nat ->
  exists parsed,
    parseLeaves hash txs = Ok parsed
    /\ length parsed = n
    /\ forall i leaf,
        nth_error leaves i = Some leaf ->
        exists node,
          nth_error parsed i = Some node
          /\ digest node = hash (p_encoded leaf)
          /\ (exists tx transfer,
                 In tx txs /\ In transfer (transfers tx)
                 /\ p_encoded leaf = encoded tx
                 /\ p_start leaf = start transfer)
          /\ (n = 1%nat -> sum node = MAX_COIN_ID)
          /\ ((1 < n)%nat -> i = 0%nat ->
              forall second, nth_error leaves 1 = Some second ->
                             sum node = p_start second - MIN_COIN_ID)
          /\ ((1 < n)%nat -> i = (n - 1)%nat ->
              sum node = MAX_COIN_ID - p_start leaf)
          /\ ((0 < i < n - 1)%nat ->
              forall next, nth_error leaves (S i) = Some next ->
                           sum node = p_start next - p_start leaf).
Proof.
  intros leaves n Hn.
  assert (Hsrc : forall leaf, In leaf leaves ->
            exists tx transfer,
              In tx txs /\ In transfer (transfers tx)
              /\ p_encoded leaf = encoded tx /\ p_start leaf = start transfer).
  { intros leaf Hin.
    destruct (sorted_transfers_source txs leaf Hin) as (tx & tr & Htx & Htr & ->).
    exists tx, tr. auto. }
  subst n. unfold leaves in *. clear leaves.
  destruct (sorted_transfers txs) as [|first [|second rest]] eqn:Hs.
  - cbn [length] in Hn. lia.
  - rewrite (parseLeaves_one hash txs first Hs).
    eexists. split; [reflexivity|]. split; [reflexivity|].
    intros i leaf Hleaf.
    destruct i as [|i]; [|destruct i; discriminate].
    injection Hleaf as <-.
    eexists. split; [reflexivity|]. cbn [digest sum length].
    split; [reflexivity|]. split; [apply Hsrc; left; reflexivity|].
    repeat split; intros; try lia; reflexivity.
  - rewrite (parseLeaves_many hash txs first second rest Hs).
    eexists. split; [reflexivity|]. split.
    { cbn [length]. rewrite length_app, interior_nodes_length. cbn [length]. lia. }
    intros i leaf Hleaf.
    assert (Hin : In leaf (first :: second :: rest))
      by (eapply nth_error_In; exact Hleaf).
    cbn [length]. destruct i as [|j].
    + injection Hleaf as <-.
      eexists. split; [reflexivity|]. cbn [digest sum].
      split; [reflexivity|]. split; [apply Hsrc; exact Hin|].
      split; [lia|]. split.
      * intros _ _ s Hsnd. injection Hsnd as <-. reflexivity.
      * split; [lia|lia].
    + cbn [nth_error] in Hleaf. cbn [nth_error].
      destruct (Nat.eq_dec j (length rest)) as [->|Hj].
      * rewrite nth_error_last in Hleaf. injection Hleaf as <-.
        eexists. split.
        { rewrite nth_error_app2 by (rewrite interior_nodes_length; cbn [length]; lia).
          rewrite interior_nodes_length. cbn [length Nat.pred].
          rewrite Nat.sub_diag. reflexivity. }
        cbn [digest sum].
        split; [reflexivity|]. split; [apply Hsrc; exact Hin|].
        split; [lia|]. split; [lia|]. split; [reflexivity|lia].
      * assert (Hlt : (j < length (second :: rest))%nat)
          by (apply nth_error_Some; rewrite Hleaf; discriminate).
        cbn [length] in Hlt.
        destruct (nth_error (second :: rest) (S j)) as [next|] eqn:Hnext;
          [|apply nth_error_None in Hnext; cbn [length] in Hnext; lia].
        exists (mkNode (hash (p_encoded leaf)) (p_start next - p_start leaf)).
        split.
        { rewrite nth_error_app1 by (rewrite interior_nodes_length; cbn [length]; lia).
          apply interior_nodes_nth; assumption. }
        cbn [digest sum].
        split; [reflexivity|]. split; [apply Hsrc; exact Hin|].
        split; [lia|]. split; [lia|]. split; [lia|].
        intros _ next' Hnext'.
        assert (Hsame : nth_error (second :: rest) (S j) = Some next')
          by exact Hnext'.
        rewrite Hnext in Hsame. injection Hsame as <-. reflexivity.
Qed.

(** The sums of the parsed leaves add up to the whole coin range. *)
Lemma parseLeaves_total (txs : list Transaction) :
  sorted_transfers txs <> [] ->
  exists parsed,
    parseLeaves hash txs = Ok parsed
    /\ parsed <> []
    /\ total parsed = MAX_COIN_ID - MIN_COIN_ID.
Proof.
  intros Hne.
  destruct (sorted_transfers txs) as [|first [|second rest]] eqn:Hs.
  - contradiction.
  - rewrite (parseLeaves_one hash txs first Hs).
    eexists. split; [reflexivity|]. split; [discriminate|].
    cbn. unfold MIN_COIN_ID. lia.
  - rewrite (parseLeaves_many hash txs first second rest Hs).
    eexists. split; [reflexivity|]. split; [discriminate|].
    cbn [total fold_right sum]. rewrite fold_right_app.
    cbn [fold_right sum].
    assert (Hfold : forall (l : list MerkleTreeNode) (z : Z),
               fold_right (fun n acc => sum n + acc) z l = total l + z).
    { induction l as [|x l IH]; intros z; cbn [total fold_right].
      - lia.
      - rewrite IH. unfold total. lia. }
    rewrite Hfold, interior_nodes_total. lia.
Qed.

End LeafSums.

(** ** The Plasma tree and its proofs *)

Section PlasmaTree.

Variable hash : list byte -> list byte.

Lemma sorted_transfers_nonempty (txs : list Transaction) :
  (exists tx, In tx txs /\ transfers tx <> []) -> sorted_transfers txs <> [].
Proof.
  intros (tx & Htx & Htr) Hs.
  destruct (transfers tx) as [|transfer more] eqn:Htransfers; [contradiction|].
  set (leaf := mkParsed (start transfer) (end_ transfer) (encoded tx)).
  assert (Hin : In leaf (sorted_transfers txs)).
  { unfold sorted_transfers.
    rewrite js_sort_In, flatten_transfers_flat_map, in_flat_map.
    exists tx. split; [exact Htx|]. rewrite Htransfers. left. reflexivity. }
  rewrite Hs in Hin. contradiction.
Qed.

(** C10.  Whenever the constructor returns a tree for a list of
    transactions, that tree has a root and the sum of the root is
    [MAX_COIN_ID - MIN_COIN_ID], whatever the number of leaves and their
    start values; and the constructor does return a tree as soon as the
    transactions hold one transfer. *)
Theorem root_sum_is_full_range (txs : list Transaction) :
  ((exists tx, In tx txs /\ transfers tx <> []) ->
   exists t, PlasmaMerkleSumTree hash (Some txs) = Ok t)
  /\ (forall t,
         PlasmaMerkleSumTree hash (Some txs) = Ok t ->
         exists r, root t = Ok (Some r) /\ sum r = MAX_COIN_ID - MIN_COIN_ID).
Proof.
  assert (Hbuilt : sorted_transfers txs <> [] ->
            exists ups r,
              PlasmaMerkleSumTree hash (Some txs)
              = Ok (mkTree txs ups)
              /\ root (mkTree txs ups) = Ok (Some r)
              /\ sum r = MAX_COIN_ID - MIN_COIN_ID).
  { intros Hsome.
    destruct (parseLeaves_total hash txs Hsome) as (parsed & Hparse & Hne & Htotal).
    destruct (generate_bottom hash parsed) as (ups & Hchain & Hgen).
    destruct (level_chain_top hash ups parsed Hchain) as (Hlen & Hlast & Htop).
    specialize (Hlast Hne).
    destruct (last (parsed :: ups) []) as [|r [|r' more]] eqn:Hroot;
      [contradiction| |cbn [length] in Hlen; lia].
    exists (parsed :: ups), r. split; [|split].
    - unfold PlasmaMerkleSumTree, MerkleSumTree. rewrite Hparse. cbn [bind].
      rewrite Hgen. reflexivity.
    - apply (root_of_levels (mkTree txs (parsed :: ups)) [r]);
        [discriminate|exact Hroot].
    - rewrite <- Htotal, <- Htop. cbn. lia. }
  split.
  - intros Hsome. apply sorted_transfers_nonempty in Hsome.
    destruct (Hbuilt Hsome) as (ups & r & Ht & _). eexists. exact Ht.
  - intros t Ht.
    destruct (sorted_transfers txs) as [|first more] eqn:Hs.
    + unfold PlasmaMerkleSumTree, MerkleSumTree in Ht.
      rewrite (parseLeaves_none hash txs Hs) in Ht. discriminate Ht.
    + destruct Hbuilt as (ups & r & Ht' & Hroot & Hsum); [discriminate|].
      rewrite Ht' in Ht. injection Ht as <-. exists r. auto.
Qed.

Lemma every_proof_true (transaction : Transaction) (root : list byte)
      (transferProofs : list TransferProof) :
  forall first,
    every_proof hash transaction root first transferProofs = Ok true
    <-> forall i transferProof,
        nth_error transferProofs i = Some transferProof ->
        checkTransferProof hash transaction (Z.of_nat (first + i))
                           transferProof root = Ok true.
Proof.
  induction transferProofs as [|p rest IH]; intros first; cbn [every_proof].
  - split; [|reflexivity]. intros _ i q Hq. destruct i; discriminate.
  - split.
    + intros Hall i q Hq.
      destruct (checkTransferProof hash transaction (Z.of_nat first) p root)
        as [[|]|e] eqn:Hp; cbn [bind] in Hall; try discriminate.
      destruct i as [|i].
      * injection Hq as <-. rewrite Nat.add_0_r. exact Hp.
      * rewrite Nat.add_succ_r, <- Nat.add_succ_l.
        apply (proj1 (IH (S first)) Hall i q Hq).
    + intros Hall.
      generalize (Hall 0%nat p eq_refl). rewrite Nat.add_0_r. intros ->.
      cbn [bind]. apply IH. intros i q Hq.
      rewrite Nat.add_succ_l, <- Nat.add_succ_r. apply (Hall (S i) q Hq).
Qed.

(** C9.  [checkTransactionProof] returns [true] exactly when every transfer
    proof it is given, checked by [checkTransferProof] against the same
    transaction and root at its own position in the list, returns [true]. *)
Theorem checkTransactionProof_all_transfers (transaction : Transaction)
        (transferProofs : list TransferProof) (root : list byte) :
  checkTransactionProof hash transaction transferProofs root = Ok true
  <-> forall transferIndex transferProof,
      nth_error transferProofs transferIndex = Some transferProof ->
      checkTransferProof hash transaction (Z.of_nat transferIndex)
                         transferProof root = Ok true.
Proof.
  unfold checkTransactionProof. apply every_proof_true.
Qed.

Lemma leaf_at_valid {L : Type} (t : Tree L) (level0 : list MerkleTreeNode)
      (index : Z) :
  nth_error (levels t) 0 = Some level0 ->
  0 <= index < Z.of_nat (length level0) ->
  exists leaf, js_index level0 index = Some leaf /\ leaf_at t index = Ok leaf.
Proof.
  intros H0 Hrange. unfold leaf_at.
  change (js_index (levels t) 0) with (nth_error (levels t) 0).
  rewrite H0. cbn [read bind].
  replace (index >=? Z.of_nat (length level0)) with false by lia.
  replace (index <? 0) with false by lia. cbn [orb].
  unfold js_index. replace (index <? 0) with false by lia.
  destruct (nth_error level0 (Z.to_nat index)) as [leaf|] eqn:Hleaf.
  - exists leaf. auto.
  - apply nth_error_None in Hleaf. lia.
Qed.

Lemma leaf_at_invalid {L : Type} (t : Tree L) (level0 : list MerkleTreeNode)
      (index : Z) :
  nth_error (levels t) 0 = Some level0 ->
  index < 0 \/ Z.of_nat (length level0) <= index ->
  leaf_at t index = Throw InvalidLeafIndex.
Proof.
  intros H0 Hrange. unfold leaf_at.
  change (js_index (levels t) 0) with (nth_error (levels t) 0).
  rewrite H0. cbn [read bind].
  destruct (index >=? Z.of_nat (length level0)) eqn:Hge;
    destruct (index <? 0) eqn:Hlt; try reflexivity. lia.
Qed.

(** C8.  On a tree returned by the constructor, [getInclusionProof] and
    [getTransferProof] throw ['Invalid leaf index'] exactly when the index is
    negative or at least [levels[0].length]; for any other index they return
    a proof, which records the index it was asked for; on a tree built
    without leaves every index is rejected with that error. *)
Theorem invalid_leaf_index_exactly_out_of_range
        (leaves : option (list Transaction)) (t : Tree Transaction) :
  PlasmaMerkleSumTree hash leaves = Ok t ->
  exists level0,
    nth_error (levels t) 0 = Some level0
    /\ (forall index,
           (getInclusionProof t index = Throw InvalidLeafIndex
            <-> index < 0 \/ Z.of_nat (length level0) <= index)
           /\ (getTransferProof t index = Throw InvalidLeafIndex
               <-> index < 0 \/ Z.of_nat (length level0) <= index)
           /\ (0 <= index < Z.of_nat (length level0) ->
               exists branch proof,
                 getInclusionProof t index = Ok branch
                 /\ getTransferProof t index = Ok proof
                 /\ leafIndex proof = index))
    /\ (leaves = None ->
        forall index,
          getInclusionProof t index = Throw InvalidLeafIndex
          /\ getTransferProof t index = Throw InvalidLeafIndex).
Proof.
  intros Hbuilt.
  assert (Hlevel0 : exists level0 ups,
             levels t = level0 :: ups /\ (leaves = None -> level0 = [])).
  { unfold PlasmaMerkleSumTree, MerkleSumTree in Hbuilt.
    destruct leaves as [txs|].
    - destruct (parseLeaves hash txs) as [bottom|e]; [|discriminate].
      cbn [bind] in Hbuilt. injection Hbuilt as <-. cbn [levels].
      destruct (generate_bottom hash bottom) as (ups & _ & ->).
      exists bottom, ups. split; [reflexivity|discriminate].
    - injection Hbuilt as <-. cbn [levels].
      destruct (generate_bottom hash []) as (ups & _ & ->).
      exists [], ups. auto. }
  destruct Hlevel0 as (level0 & ups & Hlevels & Hnone).
  assert (H0 : nth_error (levels t) 0 = Some level0) by (rewrite Hlevels; reflexivity).
  assert (Hiff : forall index,
             (getInclusionProof t index = Throw InvalidLeafIndex
              <-> index < 0 \/ Z.of_nat (length level0) <= index)
             /\ (getTransferProof t index = Throw InvalidLeafIndex
                 <-> index < 0 \/ Z.of_nat (length level0) <= index)
             /\ (0 <= index < Z.of_nat (length level0) ->
                 exists branch proof,
                   getInclusionProof t index = Ok branch
                   /\ getTransferProof t index = Ok proof
                   /\ leafIndex proof = index)).
  { intros index. unfold getInclusionProof, getTransferProof.
    destruct (Z_lt_dec index 0) as [Hneg|Hnonneg];
      [|destruct (Z_le_dec (Z.of_nat (length level0)) index) as [Hbig|Hsmall]].
    - rewrite (leaf_at_invalid t level0 index H0) by lia. cbn [bind].
      repeat split; auto; lia.
    - rewrite (leaf_at_invalid t level0 index H0) by lia. cbn [bind].
      repeat split; auto; lia.
    - destruct (leaf_at_valid t level0 index H0) as (leaf & _ & ->); [lia|].
      cbn [bind]. repeat split; try (intros; (discriminate || lia)).
      intros _. eexists. eexists. repeat split. }
  exists level0. split; [exact H0|]. split; [exact Hiff|].
  intros Hno index. specialize (Hnone Hno). subst level0.
  destruct (Hiff index) as (Hinc & Htr & _). cbn [length] in Hinc, Htr.
  split; [apply Hinc|apply Htr]; lia.
Qed.

End PlasmaTree.

(** ** Sibling paths *)

Section SiblingPaths.

Lemma sibling_index_xor (p : Z) : 0 <= p -> sibling_index p = Z.lxor p 1.
Proof.
  intros Hp. unfold sibling_index. rewrite Z.rem_mod_nonneg by lia.
  destruct p as [|q|q]; [reflexivity| |lia].
  destruct q as [q|q|].
  - replace (Z.pos q~1 mod 2) with 1.
    + cbn. lia.
    + rewrite Pos2Z.inj_xI.
      replace (2 * Z.pos q + 1) with (1 + Z.pos q * 2) by lia.
      rewrite Z.mod_add by lia. reflexivity.
  - replace (Z.pos q~0 mod 2) with 0.
    + cbn. lia.
    + rewrite Pos2Z.inj_xO, Z.mul_comm, Z.mod_mul by lia. reflexivity.
  - reflexivity.
Qed.

Lemma xor_one_half (p : Z) : Z.lxor p 1 / 2 = p / 2.
Proof.
  rewrite <- !Z.div2_div, !Z.div2_spec, Z.shiftr_lxor.
  cbn [Z.shiftr Z.shiftl Z.opp Pos.iter Z.div2]. apply Z.lxor_0_r.
Qed.

(** The parent position of the sibling is the parent position of the node,
    and the next sibling is the neighbour of that parent. *)
Lemma next_sibling_index (x : Z) :
  0 <= x ->
  sibling_index (if Z.lxor x 1 =? 0 then 0 else Z.lxor x 1 / 2)
  = Z.lxor (x / 2) 1.
Proof.
  intros Hx.
  assert (Hparent : (if Z.lxor x 1 =? 0 then 0 else Z.lxor x 1 / 2) = x / 2).
  { rewrite <- (xor_one_half x).
    destruct (Z.lxor x 1 =? 0) eqn:Hz; [|reflexivity].
    apply Z.eqb_eq in Hz. rewrite Hz. reflexivity. }
  rewrite Hparent. apply sibling_index_xor. apply Z.div_pos; lia.
Qed.

Lemma branch_loop_length (lvls : list (list MerkleTreeNode)) :
  forall s, length (branch_loop lvls s) = length lvls.
Proof.
  induction lvls as [|level above IH]; intros s; cbn [branch_loop length].
  - reflexivity.
  - rewrite IH. reflexivity.
Qed.

(** The element pushed for level [k] is read at position
    [(x >> k) XOR 1] of that level. *)
Lemma branch_loop_nth (lvls : list (list MerkleTreeNode)) :
  forall x k level,
    0 <= x ->
    nth_error lvls k = Some level ->
    nth_error (branch_loop lvls (Z.lxor x 1)) k
    = Some (match js_index level (Z.lxor (Z.shiftr x (Z.of_nat k)) 1) with
            | Some n => Some (data n)
            | None => None
            end).
Proof.
  induction lvls as [|lvl above IH]; intros x k level Hx Hk.
  - destruct k; discriminate.
  - destruct k as [|k].
    + injection Hk as <-. cbn [branch_loop nth_error Z.of_nat].
      rewrite Z.shiftr_0_r.
      destruct (js_index lvl (Z.lxor x 1)); reflexivity.
    + cbn [branch_loop nth_error] in *.
      rewrite (next_sibling_index x Hx).
      rewrite (IH (x / 2) k level) by (try apply Z.div_pos; auto; lia).
      replace (Z.shiftr (x / 2) (Z.of_nat k))
        with (Z.shiftr x (Z.of_nat (S k))); [reflexivity|].
      rewrite Nat2Z.inj_succ, <- Z.add_1_l, <- Z.shiftr_shiftr by lia.
      rewrite <- (Z.div2_div x), Z.div2_spec. reflexivity.
Qed.

Lemma removelast_length {A : Type} (l : list A) :
  length (removelast l) = (length l - 1)%nat.
Proof.
  induction l as [|x [|y l] IH]; try reflexivity.
  change (removelast (x :: y :: l)) with (x :: removelast (y :: l)).
  cbn [length] in *. rewrite IH. lia.
Qed.

Lemma removelast_nth {A : Type} (l : list A) :
  forall k, (S k < length l)%nat -> nth_error (removelast l) k = nth_error l k.
Proof.
  induction l as [|x [|y l] IH]; intros k Hk; cbn [length] in Hk; try lia.
  change (removelast (x :: y :: l)) with (x :: removelast (y :: l)).
  destruct k as [|k]; [reflexivity|].
  cbn [nth_error]. apply IH. cbn [length]. lia.
Qed.

(** C7 (amended).  For a tree and a valid leaf index, the [inclusionProof]
    of [getTransferProof] has [levels.length - 1] elements, ordered from the
    level of the leaf upward; [getInclusionProof] returns the same elements
    after one more element in front, the 48-byte record of an all-zero
    digest with the sum of the leaf; the element for level [k] is the data
    of the node at position [(index >> k) XOR 1] of that level whenever the
    level has a node there. *)
Theorem inclusion_proof_siblings {L : Type} (t : Tree L)
        (level0 : list MerkleTreeNode) (index : Z) :
  nth_error (levels t) 0 = Some level0 ->
  0 <= index < Z.of_nat (length level0) ->
  exists leaf proof,
    js_index level0 index = Some leaf
    /\ getTransferProof t index = Ok proof
    /\ length (inclusionProof proof) = (length (levels t) - 1)%nat
    /\ getInclusionProof t index
       = Ok (Some (data (mkNode zero_digest (sum leaf))) :: inclusionProof proof)
    /\ forall k level sibling,
        (S k < length (levels t))%nat ->
        nth_error (levels t) k = Some level ->
        js_index level (Z.lxor (Z.shiftr index (Z.of_nat k)) 1) = Some sibling ->
        nth_error (inclusionProof proof) k = Some (Some (data sibling)).
Proof.
  intros H0 Hrange.
  destruct (leaf_at_valid t level0 index H0 Hrange) as (leaf & Hleaf & Hat).
  exists leaf. eexists. split; [exact Hleaf|].
  unfold getTransferProof, getInclusionProof. rewrite Hat. cbn [bind].
  split; [reflexivity|]. cbn [inclusionProof].
  rewrite (sibling_index_xor index) by lia.
  split; [|split].
  - rewrite branch_loop_length. apply removelast_length.
  - reflexivity.
  - intros k level sibling Hk Hlevel Hsibling.
    rewrite (branch_loop_nth (removelast (levels t)) index k level).
    + rewrite Hsibling. reflexivity.
    + lia.
    + rewrite removelast_nth by exact Hk. exact Hlevel.
Qed.

End SiblingPaths.

(** ** The code on particular inputs *)

Section Evaluations.

Variable hash : list byte -> list byte.

(** C6.  Two transfers whose starts are [2^53 + 1] and [2^53], given in that
    order: both starts become the same [Number], the comparator returns 0,
    the sort leaves them as they were, and the leaves come out with the
    larger start first. *)
Theorem sort_keeps_large_starts_unordered (encA encB : list byte) :
  let txA := mkTransaction [mkTransfer (2 ^ 53 + 1) (2 ^ 53 + 2)] encA in
  let txB := mkTransaction [mkTransfer (2 ^ 53) (2 ^ 53 + 1)] encB in
  comparator (mkParsed (2 ^ 53 + 1) (2 ^ 53 + 2) encA)
             (mkParsed (2 ^ 53) (2 ^ 53 + 1) encB) = 0
  /\ map p_start (sorted_transfers [txA; txB]) = [2 ^ 53 + 1; 2 ^ 53]
  /\ parseLeaves hash [txA; txB]
     = Ok [mkNode (hash encA) (2 ^ 53 - MIN_COIN_ID);
           mkNode (hash encB) (MAX_COIN_ID - 2 ^ 53)].
Proof.
  intros txA txB. split; [|split]; vm_compute; reflexivity.
Qed.

(** C1.  The tree of the three transactions of the construction tests
    (starts 2, 6 and 100) and the proof of its last leaf: the sibling slot at
    the bottom level does not exist, the generator pushes [undefined] for
    it, and [checkTransferProof] throws on that element whatever root it is
    given. *)
Theorem transfer_proof_of_unpaired_leaf (enc1 enc2 enc3 : list byte) :
  let a := mkTransaction [mkTransfer 2 3] enc1 in
  let b := mkTransaction [mkTransfer 6 7] enc2 in
  let c := mkTransaction [mkTransfer 100 108] enc3 in
  exists t proof,
    PlasmaMerkleSumTree hash (Some [a; b; c]) = Ok t
    /\ map (@length _) (levels t) = [3; 2; 1]%nat
    /\ getTransferProof t 2 = Ok proof
    /\ nth_error (inclusionProof proof) 0 = Some None
    /\ forall root, checkTransferProof hash c 0 proof root = Throw TypeError.
Proof.
  intros a b c.
  destruct (PlasmaMerkleSumTree hash (Some [a; b; c])) as [t|e] eqn:Ht;
    vm_compute in Ht; [|discriminate].
  injection Ht as <-.
  eexists. eexists. split; [reflexivity|]. split; [reflexivity|].
  split; [vm_compute; reflexivity|]. split; [reflexivity|].
  intros root. reflexivity.
Qed.

Lemma bytes_eqb_refl (a : list byte) : bytes_eqb a a = true.
Proof.
  unfold bytes_eqb. destruct (list_eq_dec byte_eq_dec a a); congruence.
Qed.

Lemma firstn_exact {A : Type} (a b : list A) : firstn (length a) (a ++ b) = a.
Proof.
  induction a as [|x a IH]; cbn [length firstn app].
  - reflexivity.
  - rewrite IH. reflexivity.
Qed.

Lemma skipn_exact {A : Type} (a b : list A) : skipn (length a) (a ++ b) = b.
Proof.
  induction a as [|x a IH]; cbn [length skipn app].
  - reflexivity.
  - exact IH.
Qed.

(** A sibling record decodes to the node it was printed from. *)
Lemma decode_sibling_data (n : MerkleTreeNode) :
  length (digest n) = 32%nat ->
  0 <= sum n < 2 ^ 128 ->
  decode_sibling (data n) = n.
Proof.
  intros Hlen Hsum. destruct n as [d s]. cbn [digest sum] in *.
  unfold decode_sibling, data. cbn [digest sum].
  assert (Hhead : firstn 32 (d ++ BN.to_bytes 16 s) = d)
    by (rewrite <- Hlen; apply firstn_exact).
  assert (Htail : firstn 16 (skipn 32 (d ++ BN.to_bytes 16 s)) = BN.to_bytes 16 s).
  { rewrite <- Hlen, skipn_exact.
    rewrite <- (app_nil_r (BN.to_bytes 16 s)) at 1.
    rewrite <- (BNFacts.to_bytes_length 16 s) at 1. apply firstn_exact. }
  rewrite Hhead, Htail.
  rewrite <- Hlen, BNFacts.to_bytes_of_bytes.
  rewrite BNFacts.of_bytes_to_bytes; [reflexivity|].
  change (256 ^ Z.of_nat 16) with (2 ^ 128). exact Hsum.
Qed.

(** C2.  Two transactions [A] (range 2 to 50) and [B] (range 6 to 7), and the
    proof of the leaf of [A]: its sibling carries the sum
    [MAX_COIN_ID - 6], the path bit is 0.  The source leaves [rightSum] at 0
    and accepts; with the sibling sum accumulated into [rightSum] the bound
    on [end] is 6 and the proof is refused. *)
Theorem checkTransferProof_drops_sibling_sums (encA encB : list byte) :
  (forall x, length (hash x) = 32%nat) ->
  let txA := mkTransaction [mkTransfer 2 50] encA in
  let txB := mkTransaction [mkTransfer 6 7] encB in
  let nodeA := mkNode (hash encA) 6 in
  let nodeB := mkNode (hash encB) (MAX_COIN_ID - 6) in
  let top := parent hash nodeA nodeB in
  let proof := mkTransferProof 6 0 [Some (data nodeB)] stub_signature in
  PlasmaMerkleSumTree hash (Some [txA; txB])
  = Ok (mkTree [txA; txB] [[nodeA; nodeB]; [top]])
  /\ getTransferProof (mkTree [txA; txB] [[nodeA; nodeB]; [top]]) 0 = Ok proof
  /\ check_loop hash ["0"%char] 0 (inclusionProof proof) (mkState nodeA 0 0)
     = Ok (mkState top 0 0)
  /\ check_loop_accumulating hash ["0"%char] 0 (inclusionProof proof)
                             (mkState nodeA 0 0)
     = Ok (mkState top 0 (MAX_COIN_ID - 6))
  /\ checkTransferProof hash txA 0 proof (data top) = Ok true
  /\ checkTransferProof_accumulating hash txA 0 proof (data top) = Ok false.
Proof.
  intros Hlen txA txB nodeA nodeB top proof.
  assert (HB : decode_sibling (data nodeB) = nodeB).
  { apply decode_sibling_data; [apply Hlen|].
    cbn [sum nodeB]. unfold MAX_COIN_ID. lia. }
  assert (Hloop : check_loop hash ["0"%char] 0 (inclusionProof proof)
                             (mkState nodeA 0 0) = Ok (mkState top 0 0)).
  { cbn [inclusionProof proof check_loop read bind]. rewrite HB. reflexivity. }
  assert (Hacc : check_loop_accumulating hash ["0"%char] 0 (inclusionProof proof)
                   (mkState nodeA 0 0) = Ok (mkState top 0 (MAX_COIN_ID - 6))).
  { cbn [inclusionProof proof check_loop_accumulating read bind]. rewrite HB.
    reflexivity. }
  split; [vm_compute; reflexivity|]. split; [vm_compute; reflexivity|].
  split; [exact Hloop|]. split; [exact Hacc|]. split.
  - unfold checkTransferProof.
    change (rev (BN.toString2 (leafIndex proof) (length (inclusionProof proof))))
      with ["0"%char].
    change (negb (checkSignature (hash (encoded txA)) (signature proof)))
      with false.
    cbv iota.
    change (mkNode (hash (encoded txA)) (parsedSum proof)) with nodeA.
    rewrite Hloop. cbn [bind computedNode leftSum rightSum].
    rewrite bytes_eqb_refl. reflexivity.
  - unfold checkTransferProof_accumulating.
    change (rev (BN.toString2 (leafIndex proof) (length (inclusionProof proof))))
      with ["0"%char].
    change (mkNode (hash (encoded txA)) (parsedSum proof)) with nodeA.
    rewrite Hacc. cbn [bind computedNode leftSum rightSum].
    rewrite bytes_eqb_refl. reflexivity.
Qed.

End Evaluations.

(** ** Instances and counterexamples *)

(** The claim C4 as worded, "the digest of the parent is the hash of the two
    child digests concatenated", fails: the sums of the children are hashed
    too.  Two children with all-zero digests and sum 1 under [example_hash]
    give a parent digest other than the hash of 64 zero bytes. *)
Lemma parent_digest_counterexample :
  ~ (forall (hash : list byte -> list byte) (lft rgt : MerkleTreeNode),
        digest (parent hash lft rgt) = hash (digest lft ++ digest rgt)).
Proof.
  intros Hclaim.
  specialize (Hclaim example_hash (mkNode zero_digest 1) (mkNode zero_digest 1)).
  vm_compute in Hclaim. discriminate Hclaim.
Qed.

(** The claim C7 as worded fails on the length of the result of
    [getInclusionProof]: on the three-leaf tree the sequence returned for
    index 0 has 3 elements, and [levels.length - 1] is 2. *)
Lemma getInclusionProof_length_counterexample :
  exists branch,
    getInclusionProof example_tree 0 = Ok branch
    /\ length (levels example_tree) = 3%nat
    /\ length branch = 3%nat
    /\ length branch <> (length (levels example_tree) - 1)%nat.
Proof.
  eexists. split; [vm_compute; reflexivity|].
  split; [reflexivity|]. split; [reflexivity|]. vm_compute. discriminate.
Qed.

Lemma MerkleSumTree_level_structure_witness :
  base_parseLeaves example_hash example_leaves = Ok example_parsed
  /\ ((exists t,
          MerkleSumTree example_hash (base_parseLeaves example_hash)
                    (Some example_leaves) = Ok t
          /\ nth_error (levels t) 0 = Some example_parsed
          /\ (forall k a b,
                 nth_error (levels t) k = Some a ->
                 nth_error (levels t) (S k) = Some b ->
                 length b = ((length a + 1) / 2)%nat)
          /\ (example_parsed <> [] ->
              exists r, last (levels t) [] = [r] /\ root t = Ok (Some r))
          /\ (example_parsed = [] -> levels t = [[]] /\ root t = Ok None))
      /\ (exists t0,
             MerkleSumTree example_hash (base_parseLeaves example_hash) None = Ok t0
             /\ levels t0 = [[]] /\ root t0 = Ok None)).
Proof.
  split.
  - reflexivity.
  - apply (MerkleSumTree_level_structure example_hash
             (base_parseLeaves example_hash) example_leaves example_parsed).
    reflexivity.
Defined.

Lemma parseLeaves_boundary_rule_witness :
  (1 <= length (sorted_transfers [tx1; tx2; tx3]))%nat
  /\ exists parsed,
      parseLeaves example_hash [tx1; tx2; tx3] = Ok parsed
      /\ length parsed = length (sorted_transfers [tx1; tx2; tx3])
      /\ forall i leaf,
          nth_error (sorted_transfers [tx1; tx2; tx3]) i = Some leaf ->
          exists node,
            nth_error parsed i = Some node
            /\ digest node = example_hash (p_encoded leaf)
            /\ (exists tx transfer,
                   In tx [tx1; tx2; tx3] /\ In transfer (transfers tx)
                   /\ p_encoded leaf = encoded tx
                   /\ p_start leaf = start transfer)
            /\ (length (sorted_transfers [tx1; tx2; tx3]) = 1%nat ->
                sum node = MAX_COIN_ID)
            /\ ((1 < length (sorted_transfers [tx1; tx2; tx3]))%nat ->
                i = 0%nat ->
                forall second,
                  nth_error (sorted_transfers [tx1; tx2; tx3]) 1 = Some second ->
                  sum node = p_start second - MIN_COIN_ID)
            /\ ((1 < length (sorted_transfers [tx1; tx2; tx3]))%nat ->
                i = (length (sorted_transfers [tx1; tx2; tx3]) - 1)%nat ->
                sum node = MAX_COIN_ID - p_start leaf)
            /\ ((0 < i < length (sorted_transfers [tx1; tx2; tx3]) - 1)%nat ->
                forall next,
                  nth_error (sorted_transfers [tx1; tx2; tx3]) (S i) = Some next ->
                  sum node = p_start next - p_start leaf).
Proof.
  split.
  - vm_compute. lia.
  - apply (parseLeaves_boundary_rule example_hash [tx1; tx2; tx3]).
    vm_compute. lia.
Defined.

Lemma root_sum_is_full_range_witness :
  (exists tx, In tx [tx1; tx2; tx3] /\ transfers tx <> [])
  /\ PlasmaMerkleSumTree example_hash (Some [tx1; tx2; tx3]) = Ok example_tree
  /\ exists r,
      root example_tree = Ok (Some r) /\ sum r = MAX_COIN_ID - MIN_COIN_ID.
Proof.
  assert (Hbuilt : PlasmaMerkleSumTree example_hash (Some [tx1; tx2; tx3])
                   = Ok example_tree) by (vm_compute; reflexivity).
  split; [|split].
  - exists tx1. split; [left; reflexivity|discriminate].
  - exact Hbuilt.
  - apply (proj2 (root_sum_is_full_range example_hash [tx1; tx2; tx3])
                 example_tree Hbuilt).
Defined.

Lemma invalid_leaf_index_exactly_out_of_range_witness :
  PlasmaMerkleSumTree example_hash (Some [tx1; tx2; tx3]) = Ok example_tree
  /\ exists level0,
      nth_error (levels example_tree) 0 = Some level0
      /\ (forall index,
             (getInclusionProof example_tree index = Throw InvalidLeafIndex
              <-> index < 0 \/ Z.of_nat (length level0) <= index)
             /\ (getTransferProof example_tree index = Throw InvalidLeafIndex
                 <-> index < 0 \/ Z.of_nat (length level0) <= index)
             /\ (0 <= index < Z.of_nat (length level0) ->
                 exists branch proof,
                   getInclusionProof example_tree index = Ok branch
                   /\ getTransferProof example_tree index = Ok proof
                   /\ leafIndex proof = index))
      /\ (Some [tx1; tx2; tx3] = None ->
          forall index,
            getInclusionProof example_tree index = Throw InvalidLeafIndex
            /\ getTransferProof example_tree index = Throw InvalidLeafIndex).
Proof.
  split.
  - vm_compute. reflexivity.
  - apply (invalid_leaf_index_exactly_out_of_range
             example_hash (Some [tx1; tx2; tx3]) example_tree).
    vm_compute. reflexivity.
Defined.

Lemma inclusion_proof_siblings_witness :
  nth_error (levels example_tree) 0 = Some example_bottom
  /\ 0 <= 1 < Z.of_nat (length example_bottom)
  /\ exists leaf proof,
      js_index example_bottom 1 = Some leaf
      /\ getTransferProof example_tree 1 = Ok proof
      /\ length (inclusionProof proof) = (length (levels example_tree) - 1)%nat
      /\ getInclusionProof example_tree 1
         = Ok (Some (data (mkNode zero_digest (sum leaf))) :: inclusionProof proof)
      /\ forall k level sibling,
          (S k < length (levels example_tree))%nat ->
          nth_error (levels example_tree) k = Some level ->
          js_index level (Z.lxor (Z.shiftr 1 (Z.of_nat k)) 1) = Some sibling ->
          nth_error (inclusionProof proof) k = Some (Some (data sibling)).
Proof.
  split; [|split].
  - vm_compute. reflexivity.
  - cbn [example_bottom length]. lia.
  - apply (inclusion_proof_siblings example_tree example_bottom 1).
    + vm_compute. reflexivity.
    + cbn [example_bottom length]. lia.
Defined.

Lemma checkTransferProof_drops_sibling_sums_witness :
  (forall x, length (example_hash x) = 32%nat)
  /\ (let txA := mkTransaction [mkTransfer 2 50] [x01] in
      let txB := mkTransaction [mkTransfer 6 7] [x02] in
      let nodeA := mkNode (example_hash [x01]) 6 in
      let nodeB := mkNode (example_hash [x02]) (MAX_COIN_ID - 6) in
      let top := parent example_hash nodeA nodeB in
      let proof := mkTransferProof 6 0 [Some (data nodeB)] stub_signature in
      PlasmaMerkleSumTree example_hash (Some [txA; txB])
      = Ok (mkTree [txA; txB] [[nodeA; nodeB]; [top]])
      /\ getTransferProof (mkTree [txA; txB] [[nodeA; nodeB]; [top]]) 0 = Ok proof
      /\ check_loop example_hash ["0"%char] 0 (inclusionProof proof)
                    (mkState nodeA 0 0)
         = Ok (mkState top 0 0)
      /\ check_loop_accumulating example_hash ["0"%char] 0 (inclusionProof proof)
                                 (mkState nodeA 0 0)
         = Ok (mkState top 0 (MAX_COIN_ID - 6))
      /\ checkTransferProof example_hash txA 0 proof (data top) = Ok true
      /\ checkTransferProof_accumulating example_hash txA 0 proof (data top)
         = Ok false).
Proof.
  split.
  - intros x. apply BNFacts.to_bytes_length.
  - apply (checkTransferProof_drops_sibling_sums example_hash [x01] [x02]).
    intros x. apply BNFacts.to_bytes_length.
Defined.

Lemma checkTransactionProof_all_transfers_witness :
  checkTransactionProof example_hash tx1
    [mkTransferProof MAX_COIN_ID 0 [] stub_signature]
    (data (mkNode (example_hash [x01]) MAX_COIN_ID)) = Ok true.
Proof.
  apply (checkTransactionProof_all_transfers example_hash tx1).
  intros [|[|i]] proof Hproof; try discriminate Hproof.
  injection Hproof as <-. vm_compute. reflexivity.
Defined.

(** * Further properties of the code *)

(** ** The sort of [parseLeaves] *)

Section LeafOrder.

Variable hash : list byte -> list byte.

Lemma comparator_le (a b : ParsedTransfer) :
  (comparator a b <=? 0) = true <-> number_le a b.
Proof.
  unfold comparator, number_le, start_number. rewrite Z.leb_le. lia.
Qed.

Lemma sort_insert_perm (x : ParsedTransfer) (l : list ParsedTransfer) :
  Permutation (x :: l) (sort_insert x l).
Proof.
  induction l as [|y l IH]; cbn [sort_insert].
  - apply Permutation_refl.
  - destruct (comparator x y <=? 0).
    + apply Permutation_refl.
    + apply perm_trans with (y :: x :: l); [apply perm_swap|].
      apply perm_skip. exact IH.
Qed.

Lemma js_sort_perm (l : list ParsedTransfer) : Permutation l (js_sort l).
Proof.
  unfold js_sort. induction l as [|x l IH]; cbn [fold_right].
  - apply perm_nil.
  - apply perm_trans with (x :: fold_right sort_insert [] l).
    + apply perm_skip. exact IH.
    + apply sort_insert_perm.
Qed.

Lemma sort_insert_hd (a x : ParsedTransfer) (l : list ParsedTransfer) :
  number_le a x -> HdRel number_le a l -> HdRel number_le a (sort_insert x l).
Proof.
  intros Hax Hal. destruct l as [|y l]; cbn [sort_insert].
  - constructor. exact Hax.
  - destruct (comparator x y <=? 0); constructor.
    + exact Hax.
    + inversion Hal. assumption.
Qed.

Lemma sort_insert_sorted (x : ParsedTransfer) (l : list ParsedTransfer) :
  Sorted number_le l -> Sorted number_le (sort_insert x l).
Proof.
  induction l as [|y l IH]; intros Hs; cbn [sort_insert].
  - constructor; constructor.
  - destruct (comparator x y <=? 0) eqn:Hc.
    + constructor; [exact Hs|]. constructor. apply comparator_le. exact Hc.
    + inversion Hs as [|y' l' Hl Hhd]; subst.
      constructor; [apply IH; exact Hl|].
      apply sort_insert_hd; [|exact Hhd].
      unfold number_le, start_number. unfold comparator in Hc.
      apply Z.leb_gt in Hc. lia.
Qed.

Lemma js_sort_sorted (l : list ParsedTransfer) : Sorted number_le (js_sort l).
Proof.
  unfold js_sort. induction l as [|x l IH]; cbn [fold_right].
  - constructor.
  - apply sort_insert_sorted. exact IH.
Qed.

(** X1.  The leaves after the sort are a rearrangement of the transfers of
    the input, none lost and none repeated, and the [Number]s of their
    starts never decrease along the list. *)
Theorem sorted_transfers_rearranged_in_number_order (txs : list Transaction) :
  Permutation (flatten_transfers txs) (sorted_transfers txs)
  /\ Sorted number_le (sorted_transfers txs).
Proof.
  split; [apply js_sort_perm|apply js_sort_sorted].
Qed.

(** A start from 0 up to [2^53] excluded is its own [Number]. *)
Lemma toNumber_exact (z : Z) : 0 <= z < 2 ^ 53 -> JSNumber.toNumber z = z.
Proof.
  intros Hz. destruct z as [|p|p]; [reflexivity| |lia].
  unfold JSNumber.toNumber, JSNumber.round53.
  assert (Hlog : Z.log2 (Z.pos p) < 53) by (apply Z.log2_lt_pow2; lia).
  replace (Z.log2 (Z.pos p) - 52 <=? 0) with true by lia. reflexivity.
Qed.

Lemma Sorted_weaken {A : Type} (R1 R2 : A -> A -> Prop) (l : list A) :
  (forall a b, In a l -> In b l -> R1 a b -> R2 a b) ->
  Sorted R1 l -> Sorted R2 l.
Proof.
  induction l as [|x l IH]; intros Himp Hs.
  - constructor.
  - inversion Hs as [|x' l' Hl Hhd]; subst. constructor.
    + apply IH; [|exact Hl]. intros a b Ha Hb. apply Himp; right; assumption.
    + destruct Hhd as [|y l Hxy]; constructor.
      apply Himp; [left; reflexivity|right; left; reflexivity|exact Hxy].
Qed.

Lemma sorted_transfers_start (txs : list Transaction) (bound : Z) :
  (forall tx transfer,
      In tx txs -> In transfer (transfers tx) -> 0 <= start transfer < bound) ->
  forall leaf, In leaf (sorted_transfers txs) -> 0 <= p_start leaf < bound.
Proof.
  intros Hrange leaf Hin.
  destruct (sorted_transfers_source txs leaf Hin) as (tx & tr & Htx & Htr & ->).
  cbn [p_start]. apply (Hrange tx tr Htx Htr).
Qed.

Lemma sorted_starts_ascending (txs : list Transaction) :
  (forall tx transfer,
      In tx txs -> In transfer (transfers tx) ->
      0 <= start transfer < 2 ^ 53) ->
  Sorted (fun a b => p_start a <= p_start b) (sorted_transfers txs).
Proof.
  intros Hrange.
  apply (Sorted_weaken number_le); [|apply js_sort_sorted].
  intros a b Ha Hb. unfold number_le, start_number.
  rewrite !toNumber_exact; [auto| |];
    apply (sorted_transfers_start txs (2 ^ 53) Hrange); assumption.
Qed.

(** X2.  When every start lies from 0 up to [2^53] excluded, the leaves
    after the sort are in ascending order of start. *)
Theorem sorted_transfers_ascending_below_2_53 (txs : list Transaction) :
  (forall tx transfer,
      In tx txs -> In transfer (transfers tx) ->
      0 <= start transfer < 2 ^ 53) ->
  Sorted (fun a b => p_start a <= p_start b) (sorted_transfers txs).
Proof.
  apply sorted_starts_ascending.
Qed.

Lemma sort_insert_filter (keep : ParsedTransfer -> bool) (x : ParsedTransfer)
      (l : list ParsedTransfer) :
  (forall y, keep x = true -> keep y = true -> (comparator x y <=? 0) = true) ->
  filter keep (sort_insert x l) = filter keep (x :: l).
Proof.
  intros Hties. induction l as [|y l IH]; cbn [sort_insert].
  - reflexivity.
  - destruct (comparator x y <=? 0) eqn:Hc; [reflexivity|].
    cbn [filter] in *. rewrite IH.
    destruct (keep x) eqn:Hx; [|reflexivity].
    destruct (keep y) eqn:Hy; [|reflexivity].
    rewrite (Hties y eq_refl Hy) in Hc. discriminate Hc.
Qed.

(** X3.  The sort is stable: the leaves whose starts have one given
    [Number] come out in the order in which the input lists them. *)
Theorem sorted_transfers_stable (txs : list Transaction) (number : Z) :
  filter (fun a => start_number a =? number) (sorted_transfers txs)
  = filter (fun a => start_number a =? number) (flatten_transfers txs).
Proof.
  unfold sorted_transfers, js_sort.
  induction (flatten_transfers txs) as [|x l IH]; cbn [fold_right].
  - reflexivity.
  - rewrite sort_insert_filter.
    + cbn [filter]. rewrite IH. reflexivity.
    + intros y Hx Hy. apply Z.eqb_eq in Hx, Hy.
      unfold comparator. fold (start_number x) (start_number y).
      apply Z.leb_le. lia.
Qed.

Lemma js_sort_sorted_input (l : list ParsedTransfer) :
  Sorted number_le l -> js_sort l = l.
Proof.
  unfold js_sort. induction l as [|x l IH]; intros Hs; cbn [fold_right].
  - reflexivity.
  - inversion Hs as [|x' l' Hl Hhd]; subst. rewrite (IH Hl).
    destruct Hhd as [|y l Hxy]; cbn [sort_insert].
    + reflexivity.
    + apply comparator_le in Hxy. rewrite Hxy. reflexivity.
Qed.

(** X4.  When the transfers of the input already come in non-decreasing
    [Number] of start, the sort changes nothing: the leaf at a position is
    the transfer the input has at that position. *)
Theorem sorted_transfers_of_ordered_input (txs : list Transaction) :
  Sorted number_le (flatten_transfers txs) ->
  sorted_transfers txs = flatten_transfers txs.
Proof.
  apply js_sort_sorted_input.
Qed.

Lemma parseLeaves_returns (txs : list Transaction) :
  sorted_transfers txs <> [] ->
  exists parsed,
    parseLeaves hash txs = Ok parsed
    /\ length parsed = length (sorted_transfers txs).
Proof.
  intros Hne.
  destruct (sorted_transfers txs) as [|first [|second rest]] eqn:Hs.
  - contradiction.
  - rewrite (parseLeaves_one hash txs first Hs). eexists. split; reflexivity.
  - rewrite (parseLeaves_many hash txs first second rest Hs).
    eexists. split; [reflexivity|].
    cbn [length]. rewrite length_app, interior_nodes_length. cbn [length]. lia.
Qed.


End LeafOrder.

(** ** Invariants of the levels *)

Section TreeInvariants.

Variable hash : list byte -> list byte.

(** The levels of any tree the constructor returns. *)
Lemma built_levels {L : Type} (parse : list L -> result (list MerkleTreeNode))
      (leaves : option (list L)) (t : Tree L) :
  MerkleSumTree hash parse leaves = Ok t ->
  exists bottom ups,
    levels t = bottom :: ups
    /\ level_chain hash bottom ups
    /\ match leaves with
       | Some raw => parse raw = Ok bottom
       | None => bottom = []
       end.
Proof.
  unfold MerkleSumTree. intros Hbuilt. destruct leaves as [raw|].
  - destruct (parse raw) as [bottom|e]; [|discriminate Hbuilt].
    cbn [bind] in Hbuilt. injection Hbuilt as <-. cbn [levels].
    destruct (generate_bottom hash bottom) as (ups & Hchain & ->).
    exists bottom, ups. auto.
  - injection Hbuilt as <-. cbn [levels].
    destruct (generate_bottom hash []) as (ups & Hchain & ->).
    exists [], ups. auto.
Qed.

Lemma parents_of_nth : forall (j : nat) (level : list MerkleTreeNode)
                              (lft : MerkleTreeNode),
    nth_error level (2 * j) = Some lft ->
    nth_error (parents_of hash level) j
    = Some (parent hash lft (right_child level j)).
Proof.
  induction j as [|j IH]; intros level lft Hlft.
  - destruct level as [|a [|b rest]]; [discriminate Hlft| |];
      injection Hlft as <-; reflexivity.
  - replace (2 * S j)%nat with (S (S (2 * j))) in Hlft by lia.
    destruct level as [|a [|b rest]];
      [discriminate Hlft|destruct (2 * j)%nat; discriminate Hlft|].
    cbn [nth_error] in Hlft.
    cbn [parents_of nth_error]. rewrite (IH rest lft Hlft).
    unfold right_child.
    replace (2 * S j + 1)%nat with (S (S (2 * j + 1))) by lia.
    reflexivity.
Qed.

Lemma parents_of_nth_inv (level : list MerkleTreeNode) (j : nat)
      (node : MerkleTreeNode) :
  nth_error (parents_of hash level) j = Some node ->
  exists lft,
    nth_error level (2 * j) = Some lft
    /\ node = parent hash lft (right_child level j).
Proof.
  intros Hnode.
  assert (Hj : (j < length (parents_of hash level))%nat)
    by (apply nth_error_Some; rewrite Hnode; discriminate).
  rewrite parents_of_length in Hj.
  assert (H2j : (2 * j < length level)%nat).
  { generalize (Nat.div_mod_eq (length level + 1) 2).
    generalize (Nat.mod_upper_bound (length level + 1) 2). lia. }
  destruct (nth_error level (2 * j)) as [lft|] eqn:Hlft;
    [|apply nth_error_None in Hlft; lia].
  exists lft. split; [reflexivity|].
  rewrite (parents_of_nth j level lft Hlft) in Hnode.
  injection Hnode as <-. reflexivity.
Qed.

(** X6.  In a tree the constructor returns, the node at position [j] of a
    level above the bottom is the parent of the nodes at positions [2 j] and
    [2 j + 1] of the level below, the empty leaf standing for a node
    [2 j + 1] that the level below does not have. *)
Theorem levels_are_parents_of_pairs {L : Type}
        (parse : list L -> result (list MerkleTreeNode))
        (leaves : option (list L)) (t : Tree L) :
  MerkleSumTree hash parse leaves = Ok t ->
  forall k below above j node,
    nth_error (levels t) k = Some below ->
    nth_error (levels t) (S k) = Some above ->
    nth_error above j = Some node ->
    exists lft,
      nth_error below (2 * j) = Some lft
      /\ node = parent hash lft (right_child below j).
Proof.
  intros Hbuilt k below above j node Hbelow Habove Hnode.
  destruct (built_levels parse leaves t Hbuilt) as (bottom & ups & Hl & Hchain & _).
  rewrite Hl in Hbelow, Habove.
  destruct (level_chain_steps hash ups bottom k below above Hchain Hbelow Habove)
    as (-> & _).
  apply parents_of_nth_inv. exact Hnode.
Qed.



Lemma level_chain_depth (ups : list (list MerkleTreeNode)) :
  forall prev,
    level_chain hash prev ups ->
    (length prev <= 2 ^ length ups)%nat
    /\ (ups <> [] -> (2 ^ (length ups - 1) < length prev)%nat).
Proof.
  induction ups as [|up rest IH]; intros prev Hchain.
  - cbn [level_chain] in Hchain. cbn [length Nat.pow]. split; [lia|].
    intros Hne. contradiction.
  - cbn [level_chain] in Hchain. destruct Hchain as (Hlt & Hup & Hrest).
    destruct (IH up Hrest) as (Hupper & Hlower).
    assert (Hlen : length up = ((length prev + 1) / 2)%nat)
      by (rewrite Hup; apply parents_of_length).
    assert (Hdiv : (2 * length up <= length prev + 1
                    /\ length prev <= 2 * length up)%nat).
    { rewrite Hlen.
      generalize (Nat.div_mod_eq (length prev + 1) 2).
      generalize (Nat.mod_upper_bound (length prev + 1) 2). lia. }
    cbn [length]. rewrite Nat.pow_succ_r'. split; [lia|].
    intros _. replace (S (length rest) - 1)%nat with (length rest) by lia.
    destruct rest as [|up' rest'].
    + cbn [length Nat.pow]. lia.
    + specialize (Hlower ltac:(discriminate)).
      cbn [length] in Hlower |- *.
      replace (S (length rest') - 1)%nat with (length rest') in Hlower by lia.
      rewrite Nat.pow_succ_r'. lia.
Qed.

(** X8.  The depth of a tree on [n >= 1] parsed leaves: the number of levels
    above the bottom, which is the length of every transfer proof, is the
    least [d] with [n <= 2^d]. *)
Theorem proof_length_is_log2 {L : Type}
        (parse : list L -> result (list MerkleTreeNode))
        (leaves : option (list L)) (t : Tree L) (bottom : list MerkleTreeNode) :
  MerkleSumTree hash parse leaves = Ok t ->
  nth_error (levels t) 0 = Some bottom ->
  bottom <> [] ->
  let d := (length (levels t) - 1)%nat in
  (length bottom <= 2 ^ d)%nat
  /\ (forall d', (length bottom <= 2 ^ d')%nat -> (d <= d')%nat)
  /\ (forall index proof,
         getTransferProof t index = Ok proof ->
         length (inclusionProof proof) = d).
Proof.
  intros Hbuilt Hbottom Hne d.
  destruct (built_levels parse leaves t Hbuilt) as (b & ups & Hl & Hchain & _).
  rewrite Hl in Hbottom. injection Hbottom as ->.
  assert (Hd : d = length ups)
    by (unfold d; rewrite Hl; cbn [length]; lia).
  destruct (level_chain_depth ups bottom Hchain) as (Hupper & Hlower).
  split; [|split].
  - rewrite Hd. exact Hupper.
  - intros d' Hd'. rewrite Hd.
    destruct ups as [|up rest]; [cbn [length]; lia|].
    specialize (Hlower ltac:(discriminate)).
    destruct (Nat.le_gt_cases (length (up :: rest)) d') as [Hle|Hgt]; [exact Hle|].
    assert (Hpow : (2 ^ d' <= 2 ^ (length (up :: rest) - 1))%nat)
      by (apply Nat.pow_le_mono_r; lia).
    lia.
  - intros index proof Hproof. unfold getTransferProof in Hproof.
    destruct (leaf_at t index) as [leaf|e]; [|discriminate Hproof].
    cbn [bind] in Hproof. injection Hproof as <-. cbn [inclusionProof].
    rewrite branch_loop_length, removelast_length. reflexivity.
Qed.

End TreeInvariants.

(** ** The verification loop *)

Section VerificationLoop.

Variable hash : list byte -> list byte.

(** X9.  A node with a 32-byte digest and a sum that fits 16 bytes has a
    48-byte record, and the verifier decodes that record to the same digest
    and sum. *)
Theorem sibling_record_round_trip (n : MerkleTreeNode) :
  node_ok n ->
  length (data n) = 48%nat /\ decode_sibling (data n) = n.
Proof.
  intros (Hdigest & Hsum). split.
  - unfold data. rewrite length_app, Hdigest, BNFacts.to_bytes_length.
    reflexivity.
  - apply decode_sibling_data; assumption.
Qed.

Lemma pad_reaches (len padding : nat) :
  (0 < len)%nat -> (0 < padding)%nat ->
  (padding <= len + BN.pad_count len padding)%nat.
Proof.
  intros Hlen Hpad. unfold BN.pad_count.
  assert (Hm : (len mod padding < padding)%nat)
    by (apply Nat.mod_upper_bound; lia).
  assert (Hle : (len mod padding <= len)%nat)
    by (apply Nat.Div0.mod_le).
  destruct (len mod padding)%nat as [|m] eqn:Hmod.
  - rewrite Nat.sub_0_r, Nat.Div0.mod_same, Nat.add_0_r.
    apply Nat.Div0.mod_divides in Hmod. destruct Hmod as (c & Hc).
    destruct c as [|c]; [lia|]. rewrite Hc. nia.
  - rewrite Nat.mod_small by lia. lia.
Qed.

Lemma path_is_zero_cons (c : ascii) (l : list ascii) (i : nat) :
  path_is_zero (c :: l) (S i) = path_is_zero l i.
Proof.
  reflexivity.
Qed.

Lemma path_is_zero_zeros (k i : nat) :
  (i < k)%nat -> path_is_zero (repeat "0"%char k) i = true.
Proof.
  revert i. induction k as [|k IH]; intros i Hi; [lia|].
  destruct i as [|i]; [reflexivity|].
  cbn [repeat]. rewrite path_is_zero_cons. apply IH. lia.
Qed.

Lemma testbit_xO_succ (p : positive) (i : nat) :
  Z.testbit (Z.pos p~0) (Z.of_nat (S i)) = Z.testbit (Z.pos p) (Z.of_nat i).
Proof.
  rewrite Nat2Z.inj_succ, Pos2Z.inj_xO. apply Z.testbit_even_succ. lia.
Qed.

Lemma testbit_xI_succ (p : positive) (i : nat) :
  Z.testbit (Z.pos p~1) (Z.of_nat (S i)) = Z.testbit (Z.pos p) (Z.of_nat i).
Proof.
  rewrite Nat2Z.inj_succ, Pos2Z.inj_xI. apply Z.testbit_odd_succ. lia.
Qed.

Lemma path_is_zero_digits (p : positive) :
  forall (i k : nat),
    (i < length (BN.pos_digits_lsb p) + k)%nat ->
    path_is_zero (BN.pos_digits_lsb p ++ repeat "0"%char k) i
    = negb (Z.testbit (Z.pos p) (Z.of_nat i)).
Proof.
  induction p as [q IH|q IH|]; intros i k Hi; cbn [BN.pos_digits_lsb app length] in *.
  - destruct i as [|i]; [reflexivity|].
    rewrite path_is_zero_cons, testbit_xI_succ. apply IH. lia.
  - destruct i as [|i]; [reflexivity|].
    rewrite path_is_zero_cons, testbit_xO_succ. apply IH. lia.
  - destruct i as [|i]; [reflexivity|].
    rewrite path_is_zero_cons, path_is_zero_zeros by lia.
    rewrite Nat2Z.inj_succ.
    replace (Z.testbit 1 (Z.succ (Z.of_nat i))) with false; [reflexivity|].
    symmetry. apply Z.bits_above_log2; cbn; lia.
Qed.

Lemma rev_zeros (k : nat) : rev (repeat "0"%char k) = repeat "0"%char k.
Proof.
  induction k as [|k IH]; [reflexivity|].
  cbn [repeat rev]. rewrite IH. clear IH.
  induction k as [|k IH]; [reflexivity|].
  cbn [repeat app]. rewrite IH. reflexivity.
Qed.

Lemma path_bit (leafIndex : Z) (proofLength i : nat) :
  0 <= leafIndex ->
  (i < proofLength)%nat ->
  path_is_zero (rev (BN.toString2 leafIndex proofLength)) i
  = negb (Z.testbit leafIndex (Z.of_nat i)).
Proof.
  intros Hz Hi. unfold BN.toString2.
  destruct proofLength as [|n]; [lia|].
  destruct leafIndex as [|p|p]; [| |lia].
  - rewrite rev_app_distr, rev_zeros. cbn [rev app length].
    assert (Hpad := pad_reaches 1 (S n) ltac:(lia) ltac:(lia)).
    rewrite Z.testbit_0_l. cbn [negb].
    destruct i as [|i]; [reflexivity|].
    rewrite path_is_zero_cons. apply path_is_zero_zeros. lia.
  - rewrite rev_app_distr, rev_zeros, rev_involutive, length_rev.
    apply path_is_zero_digits.
    assert (Hlen : (0 < length (BN.pos_digits_lsb p))%nat)
      by (destruct p; cbn [BN.pos_digits_lsb length]; lia).
    assert (Hpad := pad_reaches (length (BN.pos_digits_lsb p)) (S n) Hlen
                                ltac:(lia)).
    lia.
Qed.

(** X10.  The path of a non-negative leaf index: for every position [i]
    below the length of the inclusion proof, [path[i] === '0'] holds exactly
    when bit [i] of the leaf index is 0, the least significant bit first. *)
Theorem path_reads_index_bits (leafIndex : Z) (proofLength i : nat) :
  0 <= leafIndex ->
  (i < proofLength)%nat ->
  path_is_zero (rev (BN.toString2 leafIndex proofLength)) i
  = negb (Z.testbit leafIndex (Z.of_nat i)).
Proof.
  apply path_bit.
Qed.

Lemma check_loop_same_bits (path1 path2 : list ascii)
      (rest : list (option (list byte))) :
  forall i st,
    (forall k, (k < length rest)%nat ->
               path_is_zero path1 (i + k) = path_is_zero path2 (i + k)) ->
    check_loop hash path1 i rest st = check_loop hash path2 i rest st.
Proof.
  induction rest as [|sibling rest IH]; intros i st Hbits; cbn [check_loop].
  - reflexivity.
  - destruct sibling as [buffer|]; cbn [read bind]; [|reflexivity].
    assert (Hhere := Hbits 0%nat ltac:(cbn [length]; lia)).
    rewrite Nat.add_0_r in Hhere. rewrite <- Hhere.
    assert (Hrest : forall k, (k < length rest)%nat ->
              path_is_zero path1 (S i + k) = path_is_zero path2 (S i + k)).
    { intros k Hk. rewrite Nat.add_succ_l, <- Nat.add_succ_r.
      apply Hbits. cbn [length]. lia. }
    destruct (path_is_zero path1 i); apply IH; exact Hrest.
Qed.

(** X11.  [checkTransferProof] reads of the leaf index only the bits below
    the length of the inclusion proof: two non-negative leaf indices that
    agree modulo [2 ^ inclusionProof.length] get the same answer, so a valid
    proof stays valid when [2 ^ inclusionProof.length] is added to its leaf
    index. *)
Theorem checkTransferProof_reads_low_index_bits
        (transaction : Transaction) (transferIndex : Z) (root : list byte)
        (parsed : Z) (siblings : list (option (list byte))) (sig : Signature)
        (index1 index2 : Z) :
  0 <= index1 ->
  0 <= index2 ->
  index1 mod 2 ^ Z.of_nat (length siblings)
  = index2 mod 2 ^ Z.of_nat (length siblings) ->
  checkTransferProof hash transaction transferIndex
                     (mkTransferProof parsed index1 siblings sig) root
  = checkTransferProof hash transaction transferIndex
                       (mkTransferProof parsed index2 siblings sig) root.
Proof.
  intros H1 H2 Hmod. unfold checkTransferProof.
  cbn [leafIndex inclusionProof parsedSum signature].
  rewrite (check_loop_same_bits
             (rev (BN.toString2 index1 (length siblings)))
             (rev (BN.toString2 index2 (length siblings)))).
  - reflexivity.
  - intros k Hk. cbn [Nat.add].
    rewrite !path_bit by assumption.
    f_equal.
    rewrite <- (Z.mod_pow2_bits_low index1 (Z.of_nat (length siblings)))
      by lia.
    rewrite <- (Z.mod_pow2_bits_low index2 (Z.of_nat (length siblings)))
      by lia.
    rewrite Hmod. reflexivity.
Qed.

(** X12.  The verification loop never changes [leftSum] and [rightSum]:
    whatever the path and the siblings, when the loop ends the two sums are
    what they were when it started (0 in [checkTransferProof]). *)
Theorem check_loop_keeps_sums (path : list ascii)
        (rest : list (option (list byte))) :
  forall i st final,
    check_loop hash path i rest st = Ok final ->
    leftSum final = leftSum st /\ rightSum final = rightSum st.
Proof.
  induction rest as [|sibling rest IH]; intros i st final Hloop;
    cbn [check_loop] in Hloop.
  - injection Hloop as <-. split; reflexivity.
  - destruct sibling as [buffer|]; cbn [read bind] in Hloop;
      [|discriminate Hloop].
    destruct (path_is_zero path i);
      apply IH in Hloop; cbn [leftSum rightSum] in Hloop; exact Hloop.
Qed.

End VerificationLoop.

(** ** Proofs generated and then verified *)

Section RoundTrip.

Variable hash : list byte -> list byte.
Hypothesis hash_32 : forall x, length (hash x) = 32%nat.

Lemma js_index_nat {A : Type} (l : list A) (n : nat) :
  js_index l (Z.of_nat n) = nth_error l n.
Proof.
  unfold js_index.
  replace (Z.of_nat n <? 0) with false by (symmetry; apply Z.ltb_ge; lia).
  rewrite Nat2Z.id. reflexivity.
Qed.

Lemma js_index_In {A : Type} (l : list A) (i : Z) (x : A) :
  js_index l i = Some x -> In x l.
Proof.
  unfold js_index. destruct (i <? 0); [discriminate|]. apply nth_error_In.
Qed.

(** The two cases of a position in a level: a left child with its sibling
    to the right, or a right child with its sibling to the left. *)
Lemma parity_cases (p : nat) :
  (p = (2 * (p / 2))%nat
   /\ Z.lxor (Z.of_nat p) 1 = Z.of_nat (p + 1)
   /\ Z.testbit (Z.of_nat p) 0 = false)
  \/ (p = (2 * (p / 2) + 1)%nat
      /\ Z.lxor (Z.of_nat p) 1 = Z.of_nat (2 * (p / 2))
      /\ Z.testbit (Z.of_nat p) 0 = true).
Proof.
  assert (Hdm := Nat.div_mod_eq p 2).
  assert (Hr := Nat.mod_upper_bound p 2 ltac:(lia)).
  rewrite <- sibling_index_xor by lia. unfold sibling_index.
  rewrite Z.rem_mod_nonneg by lia. rewrite Z.bit0_odd.
  destruct (p mod 2)%nat as [|[|r]] eqn:Hmod; [left|right|lia].
  - assert (Hp : Z.of_nat p = Z.of_nat (p / 2) * 2) by lia.
    assert (Hrem : Z.of_nat p mod 2 = 0)
      by (rewrite Hp; apply Z.mod_mul; lia).
    assert (Hodd : Z.odd (Z.of_nat p) = false)
      by (rewrite Hp, Z.mul_comm, Z.odd_mul; reflexivity).
    rewrite Hrem, Hodd. cbn [Z.eqb]. repeat split; lia.
  - assert (Hp : Z.of_nat p = 1 + Z.of_nat (p / 2) * 2) by lia.
    assert (Hrem : Z.of_nat p mod 2 = 1)
      by (rewrite Hp, Z.mod_add by lia; reflexivity).
    assert (Hodd : Z.odd (Z.of_nat p) = true)
      by (rewrite Hp, (Z.mul_comm _ 2), Z.odd_add_mul_2; reflexivity).
    rewrite Hrem, Hodd. cbn [Z.eqb]. repeat split; lia.
Qed.

Lemma half_shift (p k : nat) :
  Z.shiftr (Z.of_nat (p / 2)) (Z.of_nat k)
  = Z.shiftr (Z.of_nat p) (Z.of_nat (S k)).
Proof.
  rewrite Nat2Z.inj_succ, <- Z.add_1_l, <- Z.shiftr_shiftr by lia.
  rewrite Nat2Z.inj_div. change (Z.of_nat 2) with 2.
  rewrite <- (Z.div2_div (Z.of_nat p)), Z.div2_spec. reflexivity.
Qed.

Lemma half_bit (p k : nat) :
  Z.testbit (Z.of_nat (p / 2)) (Z.of_nat k)
  = Z.testbit (Z.of_nat p) (Z.of_nat (S k)).
Proof.
  rewrite Nat2Z.inj_succ, Nat2Z.inj_div. change (Z.of_nat 2) with 2.
  apply Z.div2_bits. lia.
Qed.

(** With every sibling on the way present and every node record faithful,
    the loop climbs from a node of the bottom level to the root, the sums
    untouched. *)
Lemma check_loop_climbs (ups : list (list MerkleTreeNode)) :
  forall prev p node path i0 l r,
    level_chain hash prev ups ->
    (forall level, In level (prev :: ups) -> Forall node_ok level) ->
    nth_error prev p = Some node ->
    (forall k level,
        (k < length ups)%nat ->
        nth_error (prev :: ups) k = Some level ->
        exists sib,
          js_index level (Z.lxor (Z.shiftr (Z.of_nat p) (Z.of_nat k)) 1)
          = Some sib) ->
    (forall k, (k < length ups)%nat ->
               path_is_zero path (i0 + k)
               = negb (Z.testbit (Z.of_nat p) (Z.of_nat k))) ->
    exists top,
      last (prev :: ups) [] = [top]
      /\ check_loop hash path i0
                    (branch_loop (removelast (prev :: ups))
                                 (Z.lxor (Z.of_nat p) 1))
                    (mkState node l r)
         = Ok (mkState top l r).
Proof.
  induction ups as [|up rest IH];
    intros prev p node path i0 l r Hchain Hok Hnode Hsibs Hbits.
  - cbn [level_chain] in Hchain. exists node.
    destruct prev as [|n [|n' more]]; cbn [length] in Hchain; [| |lia].
    + destruct p; discriminate Hnode.
    + destruct p as [|p]; [|destruct p; discriminate Hnode].
      injection Hnode as <-. split; reflexivity.
  - cbn [level_chain] in Hchain. destruct Hchain as (Hlt & Hup & Hrest).
    change (removelast (prev :: up :: rest))
      with (prev :: removelast (up :: rest)).
    cbn [branch_loop].
    rewrite (next_sibling_index (Z.of_nat p)) by lia.
    change 2 with (Z.of_nat 2). rewrite <- Nat2Z.inj_div.
    destruct (Hsibs 0%nat prev ltac:(cbn [length]; lia) eq_refl) as (sib & Hsib).
    change (Z.of_nat 0) with 0 in Hsib. rewrite Z.shiftr_0_r in Hsib.
    rewrite Hsib. cbn [data_of check_loop read bind].
    assert (Hsibok : node_ok sib).
    { assert (Hall := Hok prev ltac:(left; reflexivity)).
      rewrite Forall_forall in Hall. apply Hall.
      apply (js_index_In prev _ sib Hsib). }
    destruct Hsibok as (Hd & Hs). rewrite (decode_sibling_data sib Hd Hs).
    assert (Hbit := Hbits 0%nat ltac:(cbn [length]; lia)).
    rewrite Nat.add_0_r in Hbit. change (Z.of_nat 0) with 0 in Hbit.
    rewrite Hbit.
    assert (Hnext : forall computed,
               nth_error up (p / 2) = Some computed ->
               exists top,
                 last (prev :: up :: rest) [] = [top]
                 /\ check_loop hash path (S i0)
                               (branch_loop (removelast (up :: rest))
                                            (Z.lxor (Z.of_nat (p / 2)) 1))
                               (mkState computed l r)
                    = Ok (mkState top l r)).
    { intros computed Hcomputed.
      change (last (prev :: up :: rest) []) with (last (up :: rest) []).
      apply (IH up (p / 2)%nat computed path (S i0) l r Hrest).
      - intros level Hin. apply Hok. right. exact Hin.
      - exact Hcomputed.
      - intros k level Hk Hlevel. rewrite half_shift.
        apply (Hsibs (S k) level); [cbn [length]; lia|exact Hlevel].
      - intros k Hk. rewrite half_bit, Nat.add_succ_l, <- Nat.add_succ_r.
        apply Hbits. cbn [length]. lia. }
    destruct (parity_cases p) as [(Hp & Hxor & Hb)|(Hp & Hxor & Hb)];
      rewrite Hb; cbn [negb computedNode leftSum rightSum]; apply Hnext;
      rewrite Hxor, js_index_nat in Hsib; rewrite Hup.
    + rewrite Hp in Hnode.
      rewrite (parents_of_nth hash (p / 2) prev node Hnode).
      unfold right_child. rewrite <- Hp, Hsib. reflexivity.
    + rewrite (parents_of_nth hash (p / 2) prev sib Hsib).
      unfold right_child. rewrite <- Hp, Hnode. reflexivity.
Qed.

End RoundTrip.

Section PlasmaRoundTrip.

Variable hash : list byte -> list byte.
Hypothesis hash_32 : forall x, length (hash x) = 32%nat.

Lemma sum_le_total (level : list MerkleTreeNode) :
  (forall n, In n level -> 0 <= sum n) ->
  0 <= total level /\ forall n, In n level -> sum n <= total level.
Proof.
  induction level as [|x level IH]; intros Hpos.
  - split; [cbn; lia|]. intros n [].
  - destruct IH as (Htot & Hle).
    { intros n Hn. apply Hpos. right. exact Hn. }
    assert (Hx := Hpos x ltac:(left; reflexivity)).
    change (total (x :: level)) with (sum x + total level).
    split; [lia|]. intros n [<-|Hn]; [lia|].
    specialize (Hle n Hn). lia.
Qed.

Lemma parents_of_nodes (level : list MerkleTreeNode) :
  (forall n, In n level -> 0 <= sum n) ->
  forall n, In n (parents_of hash level) ->
            length (digest n) = 32%nat /\ 0 <= sum n.
Proof.
  intros Hpos n Hn. apply In_nth_error in Hn. destruct Hn as (j & Hj).
  destruct (parents_of_nth_inv hash level j n Hj) as (lft & Hlft & ->).
  cbn [parent digest sum]. split; [apply hash_32|].
  assert (Hl : 0 <= sum lft) by (apply Hpos; eapply nth_error_In; exact Hlft).
  assert (Hr : 0 <= sum (right_child level j)).
  { unfold right_child.
    destruct (nth_error level (2 * j + 1)) as [rgt|] eqn:Hrgt.
    - apply Hpos. eapply nth_error_In. exact Hrgt.
    - cbn. lia. }
  lia.
Qed.

(** Non-negative sums below a total that fits 16 bytes keep every node of
    every level inside the range of its record. *)
Lemma chain_nodes_ok (ups : list (list MerkleTreeNode)) :
  forall prev,
    level_chain hash prev ups ->
    (forall n, In n prev -> length (digest n) = 32%nat /\ 0 <= sum n) ->
    total prev < 2 ^ 128 ->
    forall level n,
      In level (prev :: ups) -> In n level ->
      node_ok n /\ sum n <= total prev.
Proof.
  induction ups as [|up rest IH]; intros prev Hchain Hprev Htotal level n Hlevel Hn.
  - destruct Hlevel as [<-|[]].
    destruct (sum_le_total prev) as (_ & Hle); [intros m Hm; apply Hprev, Hm|].
    specialize (Hle n Hn). destruct (Hprev n Hn) as (Hd & Hs).
    unfold node_ok. repeat split; try assumption; lia.
  - destruct Hlevel as [<-|Hlevel].
    + destruct (sum_le_total prev) as (_ & Hle); [intros m Hm; apply Hprev, Hm|].
      specialize (Hle n Hn). destruct (Hprev n Hn) as (Hd & Hs).
      unfold node_ok. repeat split; try assumption; lia.
    + cbn [level_chain] in Hchain. destruct Hchain as (_ & Hup & Hrest).
      assert (Htot : total up = total prev)
        by (rewrite Hup; apply parents_of_total).
      rewrite <- Htot. refine (IH up Hrest _ _ level n Hlevel Hn).
      * rewrite Hup. apply parents_of_nodes. intros m Hm. apply Hprev, Hm.
      * rewrite Htot. exact Htotal.
Qed.

Lemma interior_nodes_ok (l : list ParsedTransfer) :
  Sorted (fun a b => p_start a <= p_start b) l ->
  forall n, In n (interior_nodes hash l) ->
            length (digest n) = 32%nat /\ 0 <= sum n.
Proof.
  induction l as [|curr [|next rest] IH]; intros Hs n Hn; try contradiction.
  change (interior_nodes hash (curr :: next :: rest))
    with (mkNode (hash (p_encoded curr)) (p_start next - p_start curr)
          :: interior_nodes hash (next :: rest)) in Hn.
  inversion Hs as [|x l Htail Hhd]; subst. inversion Hhd; subst.
  destruct Hn as [<-|Hn].
  - cbn [digest sum]. split; [apply hash_32|lia].
  - apply IH; assumption.
Qed.

Lemma last_In {A : Type} (l : list A) : forall d, In (last l d) (d :: l).
Proof.
  induction l as [|x l IH]; intros d.
  - left. reflexivity.
  - rewrite last_cons. right. apply IH.
Qed.

Lemma Ok_inj {A : Type} (a b : A) : Ok a = Ok b -> a = b.
Proof.
  intros H. injection H as H. exact H.
Qed.

Lemma parsed_leaves_ok (txs : list Transaction) (parsed : list MerkleTreeNode) :
  (forall tx transfer,
      In tx txs -> In transfer (transfers tx) ->
      0 <= start transfer < 2 ^ 53) ->
  parseLeaves hash txs = Ok parsed ->
  (forall n, In n parsed -> length (digest n) = 32%nat /\ 0 <= sum n)
  /\ total parsed = MAX_COIN_ID.
Proof.
  intros Hrange Hparse.
  assert (Hsorted := sorted_starts_ascending txs Hrange).
  assert (Hstart := sorted_transfers_start txs (2 ^ 53) Hrange).
  assert (Htotal : total parsed = MAX_COIN_ID).
  { destruct (sorted_transfers txs) as [|first more] eqn:Hs.
    - rewrite (parseLeaves_none hash txs Hs) in Hparse. discriminate Hparse.
    - destruct (parseLeaves_total hash txs) as (parsed' & Hp' & _ & Htot).
      + rewrite Hs. discriminate.
      + rewrite Hparse in Hp'. injection Hp' as <-. rewrite Htot.
        unfold MIN_COIN_ID. lia. }
  split; [|exact Htotal].
  destruct (sorted_transfers txs) as [|first [|second rest]] eqn:Hs.
  - rewrite (parseLeaves_none hash txs Hs) in Hparse. discriminate Hparse.
  - rewrite (parseLeaves_one hash txs first Hs) in Hparse.
    apply Ok_inj in Hparse. subst parsed. intros n [<-|[]]. cbn [digest sum].
    split; [apply hash_32|]. unfold MAX_COIN_ID. lia.
  - rewrite (parseLeaves_many hash txs first second rest Hs) in Hparse.
    apply Ok_inj in Hparse. subst parsed.
    inversion Hsorted as [|x l Htail Hhd]; subst.
    assert (Hsecond := Hstart second ltac:(right; left; reflexivity)).
    intros n [<-|Hn].
    + cbn [digest sum]. split; [apply hash_32|]. unfold MIN_COIN_ID. lia.
    + apply in_app_or in Hn. destruct Hn as [Hn|[<-|[]]].
      * apply (interior_nodes_ok (second :: rest) Htail n Hn).
      * cbn [digest sum]. split; [apply hash_32|].
        assert (Hlast : In (last rest second) (first :: second :: rest)).
        { right. apply last_In. }
        specialize (Hstart _ Hlast). unfold MAX_COIN_ID. lia.
Qed.

(** X13.  When every start lies from 0 up to [2^53] excluded, every node of
    the tree has a sum between 0 and [MAX_COIN_ID] and a 32-byte digest, so
    that its 48-byte record decodes to the node itself. *)
Theorem plasma_nodes_fit_their_records (txs : list Transaction)
        (t : Tree Transaction) :
  (forall tx transfer,
      In tx txs -> In transfer (transfers tx) ->
      0 <= start transfer < 2 ^ 53) ->
  PlasmaMerkleSumTree hash (Some txs) = Ok t ->
  forall level n,
    In level (levels t) -> In n level ->
    0 <= sum n <= MAX_COIN_ID
    /\ length (digest n) = 32%nat
    /\ decode_sibling (data n) = n.
Proof.
  intros Hrange Hbuilt level n Hlevel Hn.
  destruct (built_levels hash (parseLeaves hash) (Some txs) t Hbuilt)
    as (bottom & ups & Hl & Hchain & Hparse).
  destruct (parsed_leaves_ok txs bottom Hrange Hparse) as (Hbottom & Htotal).
  rewrite Hl in Hlevel.
  destruct (chain_nodes_ok ups bottom Hchain Hbottom) with (level := level) (n := n)
    as ((Hd & Hs) & Hle); try assumption.
  { rewrite Htotal. unfold MAX_COIN_ID. lia. }
  rewrite Htotal in Hle. split; [lia|]. split; [exact Hd|].
  apply decode_sibling_data; assumption.
Qed.

End PlasmaRoundTrip.

Section TransferProofs.

Variable hash : list byte -> list byte.
Hypothesis hash_32 : forall x, length (hash x) = 32%nat.

Lemma interior_digests (l : list ParsedTransfer) :
  map digest (interior_nodes hash l)
  = map (fun a => hash (p_encoded a)) (removelast l).
Proof.
  induction l as [|curr [|next rest] IH]; try reflexivity.
  change (interior_nodes hash (curr :: next :: rest))
    with (mkNode (hash (p_encoded curr)) (p_start next - p_start curr)
          :: interior_nodes hash (next :: rest)).
  change (removelast (curr :: next :: rest))
    with (curr :: removelast (next :: rest)).
  cbn [map digest]. rewrite IH. reflexivity.
Qed.

(** The digests of the parsed leaves, in order, are the hashes of the
    encodings the sorted transfers carry. *)
Lemma parsed_digests (txs : list Transaction) (parsed : list MerkleTreeNode) :
  parseLeaves hash txs = Ok parsed ->
  map digest parsed
  = map (fun a => hash (p_encoded a)) (sorted_transfers txs).
Proof.
  intros Hparse.
  destruct (sorted_transfers txs) as [|first [|second rest]] eqn:Hs.
  - rewrite (parseLeaves_none hash txs Hs) in Hparse. discriminate Hparse.
  - rewrite (parseLeaves_one hash txs first Hs) in Hparse.
    apply Ok_inj in Hparse. subst parsed. reflexivity.
  - rewrite (parseLeaves_many hash txs first second rest Hs) in Hparse.
    apply Ok_inj in Hparse. subst parsed.
    assert (Htail : map (fun a => hash (p_encoded a)) (second :: rest)
                    = map (fun a => hash (p_encoded a))
                          (removelast (second :: rest))
                      ++ [hash (p_encoded (last rest second))]).
    { rewrite (app_removelast_last second (l := second :: rest)) at 1
        by discriminate.
      rewrite map_app, last_cons. reflexivity. }
    change (map (fun a => hash (p_encoded a)) (first :: second :: rest))
      with (hash (p_encoded first)
            :: map (fun a => hash (p_encoded a)) (second :: rest)).
    rewrite Htail. cbn [map digest].
    rewrite map_app, interior_digests. reflexivity.
Qed.

Lemma generated_proof_verifies (txs : list Transaction) (t : Tree Transaction)
        (i j : nat) (tx : Transaction) (transfer : Transfer) :
  (forall tx' transfer',
      In tx' txs -> In transfer' (transfers tx') ->
      0 <= start transfer' < 2 ^ 53 /\ end_ transfer' <= MAX_COIN_ID) ->
  PlasmaMerkleSumTree hash (Some txs) = Ok t ->
  In tx txs ->
  nth_error (transfers tx) j = Some transfer ->
  nth_error (sorted_transfers txs) i
  = Some (mkParsed (start transfer) (end_ transfer) (encoded tx)) ->
  (forall k level,
      (S k < length (levels t))%nat ->
      nth_error (levels t) k = Some level ->
      exists sib,
        js_index level (Z.lxor (Z.shiftr (Z.of_nat i) (Z.of_nat k)) 1)
        = Some sib) ->
  exists proof r,
    getTransferProof t (Z.of_nat i) = Ok proof
    /\ root t = Ok (Some r)
    /\ checkTransferProof hash tx (Z.of_nat j) proof (data r) = Ok true.
Proof.
  intros Hrange Hbuilt Htx Htransfer Hleaf Hsibs.
  destruct (built_levels hash (parseLeaves hash) (Some txs) t Hbuilt)
    as (bottom & ups & Hl & Hchain & Hparse).
  assert (Hstarts : forall tx' transfer',
             In tx' txs -> In transfer' (transfers tx') ->
             0 <= start transfer' < 2 ^ 53)
    by (intros tx' tr' H1 H2; apply (Hrange tx' tr' H1 H2)).
  destruct (parsed_leaves_ok hash hash_32 txs bottom Hstarts Hparse)
    as (Hbottom & Htotal).
  assert (Hnodes : forall level, In level (bottom :: ups) -> Forall node_ok level).
  { intros level Hlevel. apply Forall_forall. intros n Hn.
    apply (chain_nodes_ok hash hash_32 ups bottom Hchain Hbottom) with (level := level);
      try assumption.
    rewrite Htotal. unfold MAX_COIN_ID. lia. }
  (* the node of the leaf *)
  assert (Hnode : exists node,
             nth_error bottom i = Some node
             /\ digest node = hash (encoded tx)).
  { assert (Hd := parsed_digests txs bottom Hparse).
    assert (Hi : nth_error (map digest bottom) i = Some (hash (encoded tx))).
    { rewrite Hd, nth_error_map, Hleaf. reflexivity. }
    rewrite nth_error_map in Hi.
    destruct (nth_error bottom i) as [node|]; [|discriminate Hi].
    exists node. split; [reflexivity|].
    cbn [option_map] in Hi. injection Hi as Hi. exact Hi. }
  destruct Hnode as (node & Hnode & Hdigest).
  assert (Hi : (i < length bottom)%nat)
    by (apply nth_error_Some; rewrite Hnode; discriminate).
  assert (H0 : nth_error (levels t) 0 = Some bottom)
    by (rewrite Hl; reflexivity).
  destruct (leaf_at_valid t bottom (Z.of_nat i) H0 ltac:(lia))
    as (leaf & Hjs & Hat).
  rewrite js_index_nat, Hnode in Hjs. injection Hjs as <-.
  (* the loop climbs to the root *)
  assert (Hlen : length (branch_loop (removelast (bottom :: ups))
                                     (Z.lxor (Z.of_nat i) 1)) = length ups).
  { rewrite branch_loop_length, removelast_length. cbn [length]. lia. }
  destruct (check_loop_climbs hash ups bottom i node
              (rev (BN.toString2 (Z.of_nat i) (length ups))) 0%nat 0 0
              Hchain Hnodes Hnode)
    as (top & Htop & Hloop).
  { intros k level Hk Hlevel. apply Hsibs.
    - rewrite Hl. cbn [length]. lia.
    - rewrite Hl. exact Hlevel. }
  { intros k Hk. cbn [Nat.add]. apply path_bit; lia. }
  exists (mkTransferProof (sum node) (Z.of_nat i)
            (branch_loop (removelast (levels t)) (sibling_index (Z.of_nat i)))
            stub_signature), top.
  split; [|split].
  - unfold getTransferProof. rewrite Hat. reflexivity.
  - apply (root_of_levels t [top]).
    + rewrite Hl. discriminate.
    + rewrite Hl. exact Htop.
  - unfold checkTransferProof.
    cbn [leafIndex inclusionProof parsedSum signature checkSignature negb].
    rewrite (sibling_index_xor (Z.of_nat i)) by lia. rewrite Hl, Hlen.
    replace (mkNode (hash (encoded tx)) (sum node)) with node
      by (destruct node; cbn [digest sum] in *; subst; reflexivity).
    rewrite Hloop. cbn [bind computedNode leftSum rightSum].
    rewrite js_index_nat, Htransfer. cbn [read bind].
    assert (Hsum : sum top = MAX_COIN_ID).
    { destruct (level_chain_top hash ups bottom Hchain) as (_ & _ & Htot).
      rewrite Htop, Htotal in Htot.
      change (total [top]) with (sum top + 0) in Htot. lia. }
    destruct (Hrange tx transfer Htx (nth_error_In _ _ Htransfer))
      as (Hstart & Hend).
    rewrite Hsum, bytes_eqb_refl.
    replace (start transfer >=? 0) with true
      by (symmetry; apply Z.geb_le; lia).
    replace (end_ transfer <=? MAX_COIN_ID - 0) with true
      by (symmetry; apply Z.leb_le; lia).
    reflexivity.
Qed.

(** X14.  Generation then verification.  Take transactions whose starts lie
    from 0 up to [2^53] excluded and whose ends do not exceed
    [MAX_COIN_ID], the tree built on them, a leaf position [i] and the
    transfer [j] of the transaction [tx] that the sort placed there.  If on
    the way from that leaf to the root every sibling position exists, then
    [getTransferProof (i)] returns a proof and [checkTransferProof] of [tx],
    [j], that proof and the data of the root of the tree returns [true]. *)
Theorem transfer_proof_verifies (txs : list Transaction) (t : Tree Transaction)
        (i j : nat) (tx : Transaction) (transfer : Transfer) :
  (forall tx' transfer',
      In tx' txs -> In transfer' (transfers tx') ->
      0 <= start transfer' < 2 ^ 53 /\ end_ transfer' <= MAX_COIN_ID) ->
  PlasmaMerkleSumTree hash (Some txs) = Ok t ->
  In tx txs ->
  nth_error (transfers tx) j = Some transfer ->
  nth_error (sorted_transfers txs) i
  = Some (mkParsed (start transfer) (end_ transfer) (encoded tx)) ->
  (forall k level,
      (S k < length (levels t))%nat ->
      nth_error (levels t) k = Some level ->
      exists sib,
        js_index level (Z.lxor (Z.shiftr (Z.of_nat i) (Z.of_nat k)) 1)
        = Some sib) ->
  exists proof r,
    getTransferProof t (Z.of_nat i) = Ok proof
    /\ root t = Ok (Some r)
    /\ checkTransferProof hash tx (Z.of_nat j) proof (data r) = Ok true.
Proof.
  apply generated_proof_verifies.
Qed.

Lemma pow2_levels (ups : list (list MerkleTreeNode)) :
  forall prev d,
    level_chain hash prev ups ->
    length prev = (2 ^ d)%nat ->
    length ups = d
    /\ forall k level,
        nth_error (prev :: ups) k = Some level ->
        length level = (2 ^ (d - k))%nat.
Proof.
  induction ups as [|up rest IH]; intros prev d Hchain Hlen;
    cbn [level_chain] in Hchain.
  - assert (Hd : d = 0%nat).
    { destruct d as [|d]; [reflexivity|].
      rewrite Hlen, Nat.pow_succ_r' in Hchain.
      assert (0 < 2 ^ d)%nat by (apply Nat.neq_0_lt_0, Nat.pow_nonzero; lia).
      lia. }
    subst d. split; [reflexivity|].
    intros k level Hlevel.
    destruct k as [|k]; [|destruct k; discriminate Hlevel].
    injection Hlevel as <-. exact Hlen.
  - destruct Hchain as (Hlt & Hup & Hrest).
    destruct d as [|d]; [rewrite Hlen in Hlt; cbn in Hlt; lia|].
    assert (Hupl : length up = (2 ^ d)%nat).
    { rewrite Hup, parents_of_length, Hlen, Nat.pow_succ_r'.
      replace (2 * 2 ^ d + 1)%nat with (1 + 2 ^ d * 2)%nat by lia.
      rewrite Nat.div_add by lia. reflexivity. }
    destruct (IH up d Hrest Hupl) as (Hd & Hlevels).
    split; [cbn [length]; lia|].
    intros k level Hlevel. destruct k as [|k].
    + injection Hlevel as <-. rewrite Nat.sub_0_r. exact Hlen.
    + cbn [nth_error] in Hlevel. rewrite (Hlevels k level Hlevel).
      reflexivity.
Qed.

Lemma pow2_sibling_exists (level : list MerkleTreeNode) (q m : nat) :
  length level = (2 ^ S m)%nat ->
  (q < 2 ^ S m)%nat ->
  exists sib, js_index level (Z.lxor (Z.of_nat q) 1) = Some sib.
Proof.
  intros Hlen Hq. rewrite Nat.pow_succ_r' in *.
  assert (Hin : forall x, (x < length level)%nat ->
                          exists sib, js_index level (Z.of_nat x) = Some sib).
  { intros x Hx. rewrite js_index_nat.
    destruct (nth_error level x) as [sib|] eqn:Hsib; [eauto|].
    apply nth_error_None in Hsib. lia. }
  destruct (parity_cases q) as [(Hp & -> & _)|(Hp & -> & _)];
    apply Hin; lia.
Qed.

Lemma power_of_two_proof_verifies
        (txs : list Transaction) (t : Tree Transaction) (d i j : nat)
        (tx : Transaction) (transfer : Transfer) :
  (forall tx' transfer',
      In tx' txs -> In transfer' (transfers tx') ->
      0 <= start transfer' < 2 ^ 53 /\ end_ transfer' <= MAX_COIN_ID) ->
  PlasmaMerkleSumTree hash (Some txs) = Ok t ->
  length (flatten_transfers txs) = (2 ^ d)%nat ->
  In tx txs ->
  nth_error (transfers tx) j = Some transfer ->
  nth_error (sorted_transfers txs) i
  = Some (mkParsed (start transfer) (end_ transfer) (encoded tx)) ->
  exists proof r,
    getTransferProof t (Z.of_nat i) = Ok proof
    /\ root t = Ok (Some r)
    /\ checkTransferProof hash tx (Z.of_nat j) proof (data r) = Ok true.
Proof.
  intros Hrange Hbuilt Hpow Htx Htransfer Hleaf.
  apply (generated_proof_verifies txs t i j tx transfer); try assumption.
  destruct (built_levels hash (parseLeaves hash) (Some txs) t Hbuilt)
    as (bottom & ups & Hl & Hchain & Hparse).
  assert (Hsorted : length (sorted_transfers txs) = (2 ^ d)%nat).
  { rewrite <- Hpow. symmetry. apply Permutation_length, js_sort_perm. }
  assert (Hbottom : length bottom = (2 ^ d)%nat).
  { rewrite <- Hsorted, <- (length_map digest bottom),
      (parsed_digests txs bottom Hparse), length_map. reflexivity. }
  destruct (pow2_levels ups bottom d Hchain Hbottom) as (Hd & Hlevels).
  assert (Hi : (i < 2 ^ d)%nat).
  { rewrite <- Hsorted. apply nth_error_Some. rewrite Hleaf. discriminate. }
  intros k level Hk Hlevel. rewrite Hl in Hk, Hlevel. cbn [length] in Hk.
  specialize (Hlevels k level Hlevel).
  rewrite Z.shiftr_div_pow2 by lia.
  change 2 with (Z.of_nat 2). rewrite <- Nat2Z.inj_pow, <- Nat2Z.inj_div.
  change (Z.of_nat 2) with 2.
  replace (d - k)%nat with (S (d - k - 1)) in Hlevels by lia.
  apply (pow2_sibling_exists level (i / 2 ^ k) (d - k - 1) Hlevels).
  apply Nat.Div0.div_lt_upper_bound.
  rewrite <- Nat.pow_add_r. replace (k + S (d - k - 1))%nat with d by lia.
  exact Hi.
Qed.

(** X15.  On a tree whose number of leaves is a power of two, with starts
    from 0 up to [2^53] excluded and ends up to [MAX_COIN_ID], the transfer
    proof of every leaf verifies against the root of the tree. *)
Theorem transfer_proofs_verify_on_power_of_two
        (txs : list Transaction) (t : Tree Transaction) (d i j : nat)
        (tx : Transaction) (transfer : Transfer) :
  (forall tx' transfer',
      In tx' txs -> In transfer' (transfers tx') ->
      0 <= start transfer' < 2 ^ 53 /\ end_ transfer' <= MAX_COIN_ID) ->
  PlasmaMerkleSumTree hash (Some txs) = Ok t ->
  length (flatten_transfers txs) = (2 ^ d)%nat ->
  In tx txs ->
  nth_error (transfers tx) j = Some transfer ->
  nth_error (sorted_transfers txs) i
  = Some (mkParsed (start transfer) (end_ transfer) (encoded tx)) ->
  exists proof r,
    getTransferProof t (Z.of_nat i) = Ok proof
    /\ root t = Ok (Some r)
    /\ checkTransferProof hash tx (Z.of_nat j) proof (data r) = Ok true.
Proof.
  apply power_of_two_proof_verifies.
Qed.

End TransferProofs.

Section MissingSibling.

Variable hash : list byte -> list byte.



End MissingSibling.

(** ** Transaction proofs *)

Section TransactionProofs.

Variable hash : list byte -> list byte.

Lemma every_proof_first_failure (transaction : Transaction) (root : list byte)
      (outcome : result bool) (transferProofs : list TransferProof) :
  outcome <> Ok true ->
  forall first,
    every_proof hash transaction root first transferProofs = outcome
    <-> exists k failing,
        nth_error transferProofs k = Some failing
        /\ checkTransferProof hash transaction (Z.of_nat (first + k))
                              failing root = outcome
        /\ forall i earlier,
            (i < k)%nat ->
            nth_error transferProofs i = Some earlier ->
            checkTransferProof hash transaction (Z.of_nat (first + i))
                               earlier root = Ok true.
Proof.
  intros Hout.
  induction transferProofs as [|p rest IH]; intros first; cbn [every_proof].
  - split.
    + intros H. symmetry in H. contradiction.
    + intros (k & q & Hq & _). destruct k; discriminate Hq.
  - destruct (checkTransferProof hash transaction (Z.of_nat first) p root)
      as [valid|e] eqn:Hp; cbn [bind]; [destruct valid|].
    + rewrite (IH (S first)). split.
      * intros (k & q & Hq & Hfail & Hbefore). exists (S k), q.
        split; [exact Hq|]. rewrite Nat.add_succ_r. split; [exact Hfail|].
        intros i earlier Hi Hearlier. destruct i as [|i].
        -- injection Hearlier as <-. rewrite Nat.add_0_r. exact Hp.
        -- rewrite Nat.add_succ_r. apply (Hbefore i earlier); [lia|exact Hearlier].
      * intros (k & q & Hq & Hfail & Hbefore). destruct k as [|k].
        -- injection Hq as <-. rewrite Nat.add_0_r, Hp in Hfail.
           symmetry in Hfail. contradiction.
        -- exists k, q. split; [exact Hq|].
           rewrite Nat.add_succ_r in Hfail. split; [exact Hfail|].
           intros i earlier Hi Hearlier.
           specialize (Hbefore (S i) earlier ltac:(lia) Hearlier).
           rewrite Nat.add_succ_r in Hbefore. exact Hbefore.
    + split.
      * intros <-. exists 0%nat, p. rewrite Nat.add_0_r.
        split; [reflexivity|]. split; [exact Hp|]. intros i earlier Hi. lia.
      * intros (k & q & Hq & Hfail & Hbefore). destruct k as [|k].
        -- injection Hq as <-. rewrite Nat.add_0_r, Hp in Hfail. exact Hfail.
        -- specialize (Hbefore 0%nat p ltac:(lia) eq_refl).
           rewrite Nat.add_0_r, Hp in Hbefore. discriminate Hbefore.
    + split.
      * intros <-. exists 0%nat, p. rewrite Nat.add_0_r.
        split; [reflexivity|]. split; [exact Hp|]. intros i earlier Hi. lia.
      * intros (k & q & Hq & Hfail & Hbefore). destruct k as [|k].
        -- injection Hq as <-. rewrite Nat.add_0_r, Hp in Hfail. exact Hfail.
        -- specialize (Hbefore 0%nat p ltac:(lia) eq_refl).
           rewrite Nat.add_0_r, Hp in Hbefore. discriminate Hbefore.
Qed.

(** X17.  When [checkTransactionProof] does not return [true], its outcome,
    [false] or an exception, is the outcome of the first transfer proof that
    does not verify; the proofs after that one are not examined. *)
Theorem checkTransactionProof_stops_at_first_failure
        (transaction : Transaction) (transferProofs : list TransferProof)
        (root : list byte) (outcome : result bool) :
  outcome <> Ok true ->
  (checkTransactionProof hash transaction transferProofs root = outcome
   <-> exists k failing,
       nth_error transferProofs k = Some failing
       /\ checkTransferProof hash transaction (Z.of_nat k) failing root
          = outcome
       /\ forall i earlier,
           (i < k)%nat ->
           nth_error transferProofs i = Some earlier ->
           checkTransferProof hash transaction (Z.of_nat i) earlier root
           = Ok true).
Proof.
  intros Hout. unfold checkTransactionProof.
  apply (every_proof_first_failure transaction root outcome transferProofs Hout 0%nat).
Qed.






End TransactionProofs.

Section TransactionRoundTrip.

Variable hash : list byte -> list byte.
Hypothesis hash_32 : forall x, length (hash x) = 32%nat.

Lemma filter_seq_none (same_object : nat -> bool) (n : nat) :
  forall a,
    (forall q, (a <= q < a + n)%nat -> same_object q = false) ->
    filter same_object (seq a n) = [].
Proof.
  induction n as [|n IH]; intros a Hnone; cbn [seq filter]; [reflexivity|].
  rewrite (Hnone a) by lia. apply IH. intros q Hq. apply Hnone. lia.
Qed.

Lemma filter_seq_one (same_object : nat -> bool) (p n : nat) :
  forall a,
    (a <= p < a + n)%nat ->
    (forall q, (a <= q < a + n)%nat -> (same_object q = true <-> q = p)) ->
    filter same_object (seq a n) = [p].
Proof.
  induction n as [|n IH]; intros a Hp Hone; [lia|].
  cbn [seq filter]. destruct (Nat.eq_dec a p) as [->|Hne].
  - rewrite (proj2 (Hone p ltac:(lia)) eq_refl). f_equal.
    apply filter_seq_none. intros q Hq.
    destruct (same_object q) eqn:Hsame; [|reflexivity].
    apply (Hone q ltac:(lia)) in Hsame. lia.
  - destruct (same_object a) eqn:Hsame.
    + apply (Hone a ltac:(lia)) in Hsame. contradiction.
    + apply IH; [lia|]. intros q Hq. apply Hone. lia.
Qed.

(** With one transfer in every transaction, the flattened transfers are the
    transactions, position by position. *)
Lemma flatten_single_transfers (txs : list Transaction) :
  (forall tx, In tx txs -> exists transfer, transfers tx = [transfer]) ->
  forall p tx transfer,
    nth_error txs p = Some tx ->
    transfers tx = [transfer] ->
    nth_error (flatten_transfers txs) p
    = Some (mkParsed (start transfer) (end_ transfer) (encoded tx)).
Proof.
  rewrite flatten_transfers_flat_map.
  induction txs as [|tx0 txs IH]; intros Hsingle p tx transfer Hp Htr.
  - destruct p; discriminate Hp.
  - cbn [flat_map]. destruct p as [|p].
    + injection Hp as ->. rewrite Htr. reflexivity.
    + destruct (Hsingle tx0 ltac:(left; reflexivity)) as (tr0 & Htr0).
      rewrite Htr0. cbn [map app nth_error].
      apply IH; [|exact Hp|exact Htr].
      intros tx' Hin. apply Hsingle. right. exact Hin.
Qed.

(** X19.  End to end on a list of single-transfer transactions given in
    ascending order of start (starts from 0 up to [2^53] excluded, ends up
    to [MAX_COIN_ID]): for the transaction held once by the array, at
    position [p], with every sibling position present on the way from leaf
    [p] to the root, [getTransactionProof] returns a proof that
    [checkTransactionProof] accepts against the root of the tree. *)
Theorem transaction_proof_verifies (txs : list Transaction)
        (t : Tree Transaction) (same_object : nat -> bool) (p : nat)
        (tx : Transaction) (transfer : Transfer) :
  (forall tx' transfer',
      In tx' txs -> In transfer' (transfers tx') ->
      0 <= start transfer' < 2 ^ 53 /\ end_ transfer' <= MAX_COIN_ID) ->
  (forall tx', In tx' txs -> exists transfer', transfers tx' = [transfer']) ->
  Sorted (fun a b => p_start a <= p_start b) (flatten_transfers txs) ->
  PlasmaMerkleSumTree hash (Some txs) = Ok t ->
  nth_error txs p = Some tx ->
  transfers tx = [transfer] ->
  (forall q, (q < length txs)%nat -> (same_object q = true <-> q = p)) ->
  (forall k level,
      (S k < length (levels t))%nat ->
      nth_error (levels t) k = Some level ->
      exists sib,
        js_index level (Z.lxor (Z.shiftr (Z.of_nat p) (Z.of_nat k)) 1)
        = Some sib) ->
  exists proofs r,
    getTransactionProof t same_object = Ok proofs
    /\ length proofs = 1%nat
    /\ root t = Ok (Some r)
    /\ checkTransactionProof hash tx proofs (data r) = Ok true.
Proof.
  intros Hrange Hsingle Hordered Hbuilt Hp Htr Hsame Hsibs.
  assert (Hleaves : leaves t = txs).
  { unfold PlasmaMerkleSumTree, MerkleSumTree in Hbuilt.
    destruct (parseLeaves hash txs); [|discriminate Hbuilt].
    cbn [bind] in Hbuilt. apply Ok_inj in Hbuilt. subst t. reflexivity. }
  assert (Hstarts : forall leaf, In leaf (flatten_transfers txs) ->
                                 0 <= p_start leaf < 2 ^ 53).
  { intros leaf Hin. rewrite flatten_transfers_flat_map in Hin.
    apply in_flat_map in Hin. destruct Hin as (tx' & Htx' & Hin).
    apply in_map_iff in Hin. destruct Hin as (tr' & <- & Htr').
    cbn [p_start]. apply (Hrange tx' tr' Htx' Htr'). }
  assert (Hsorted : sorted_transfers txs = flatten_transfers txs).
  { apply js_sort_sorted_input.
    apply (Sorted_weaken (fun a b => p_start a <= p_start b)); [|exact Hordered].
    intros a b Ha Hb Hab. unfold number_le, start_number.
    rewrite !toNumber_exact by (apply Hstarts; assumption). exact Hab. }
  assert (Hleaf : nth_error (sorted_transfers txs) p
                  = Some (mkParsed (start transfer) (end_ transfer) (encoded tx))).
  { rewrite Hsorted. apply flatten_single_transfers; assumption. }
  assert (Htx : In tx txs) by (eapply nth_error_In; exact Hp).
  destruct (generated_proof_verifies hash hash_32 txs t p 0%nat tx transfer
              Hrange Hbuilt Htx ltac:(rewrite Htr; reflexivity) Hleaf Hsibs)
    as (proof & r & Hproof & Hroot & Hcheck).
  exists [proof], r. split; [|split; [reflexivity|split; [exact Hroot|]]].
  - unfold getTransactionProof, transactionLeafIndices. rewrite Hleaves.
    rewrite (filter_seq_one same_object p (length txs) 0%nat).
    + cbn [map map_result]. rewrite Hproof. reflexivity.
    + assert (p < length txs)%nat
        by (apply nth_error_Some; rewrite Hp; discriminate).
      lia.
    + intros q Hq. apply Hsame. lia.
  - unfold checkTransactionProof. cbn [every_proof].
    change (Z.of_nat 0) with 0 in Hcheck |- *. rewrite Hcheck. reflexivity.
Qed.

(** X20.  A transaction that the array of the tree does not hold gets an
    empty transaction proof, without error, and [checkTransactionProof]
    accepts that empty proof for any transaction and against any root. *)
Theorem absent_transaction_gets_an_accepted_proof {L : Type} (t : Tree L)
        (same_object : nat -> bool) :
  (forall position, (position < length (leaves t))%nat ->
                    same_object position = false) ->
  getTransactionProof t same_object = Ok []
  /\ forall transaction root,
      checkTransactionProof hash transaction [] root = Ok true.
Proof.
  intros Habsent. split.
  - unfold getTransactionProof, transactionLeafIndices.
    rewrite filter_seq_none; [reflexivity|].
    intros q Hq. apply Habsent. lia.
  - intros transaction root. reflexivity.
Qed.

End TransactionRoundTrip.

(** ** Instances of the further properties *)

Lemma example_hash_32 : forall x, length (example_hash x) = 32%nat.
Proof.
  intros x. apply BNFacts.to_bytes_length.
Qed.

Lemma example_ranges (txs : list Transaction) :
  incl txs [tx1; tx2; tx3] ->
  forall tx transfer,
    In tx txs -> In transfer (transfers tx) ->
    0 <= start transfer < 2 ^ 53 /\ end_ transfer <= MAX_COIN_ID.
Proof.
  intros Hincl tx transfer Htx Htr. apply Hincl in Htx.
  destruct Htx as [<-|[<-|[<-|[]]]]; destruct Htr as [<-|[]];
    cbn [start end_]; unfold MAX_COIN_ID; lia.
Qed.

Lemma sorted_transfers_ascending_below_2_53_witness :
  (forall tx transfer,
      In tx [tx1; tx2; tx3] -> In transfer (transfers tx) ->
      0 <= start transfer < 2 ^ 53)
  /\ Sorted (fun a b => p_start a <= p_start b)
            (sorted_transfers [tx1; tx2; tx3]).
Proof.
  assert (Hrange : forall tx transfer,
             In tx [tx1; tx2; tx3] -> In transfer (transfers tx) ->
             0 <= start transfer < 2 ^ 53).
  { intros tx transfer Htx Htr.
    apply (example_ranges [tx1; tx2; tx3] (incl_refl _) tx transfer Htx Htr). }
  split; [exact Hrange|].
  apply (sorted_transfers_ascending_below_2_53 [tx1; tx2; tx3] Hrange).
Defined.

Lemma example_flatten_ordered :
  Sorted number_le (flatten_transfers [tx1; tx2; tx3]).
Proof.
  repeat constructor; unfold number_le; vm_compute; discriminate.
Qed.

Lemma sorted_transfers_of_ordered_input_witness :
  Sorted number_le (flatten_transfers [tx1; tx2; tx3])
  /\ sorted_transfers [tx1; tx2; tx3] = flatten_transfers [tx1; tx2; tx3].
Proof.
  split; [exact example_flatten_ordered|].
  apply (sorted_transfers_of_ordered_input [tx1; tx2; tx3]).
  exact example_flatten_ordered.
Defined.


Lemma example_tree_built :
  PlasmaMerkleSumTree example_hash (Some [tx1; tx2; tx3]) = Ok example_tree.
Proof.
  vm_compute. reflexivity.
Qed.

Lemma example_pair_tree_built :
  PlasmaMerkleSumTree example_hash (Some [tx1; tx2]) = Ok example_pair_tree.
Proof.
  vm_compute. reflexivity.
Qed.

Lemma levels_are_parents_of_pairs_witness :
  PlasmaMerkleSumTree example_hash (Some [tx1; tx2; tx3]) = Ok example_tree
  /\ forall k below above j node,
      nth_error (levels example_tree) k = Some below ->
      nth_error (levels example_tree) (S k) = Some above ->
      nth_error above j = Some node ->
      exists lft,
        nth_error below (2 * j) = Some lft
        /\ node = parent example_hash lft (right_child below j).
Proof.
  split; [exact example_tree_built|].
  apply (levels_are_parents_of_pairs example_hash (parseLeaves example_hash)
           (Some [tx1; tx2; tx3]) example_tree).
  exact example_tree_built.
Defined.

Lemma example_bottom_level :
  nth_error (levels example_tree) 0 = Some example_bottom.
Proof.
  vm_compute. reflexivity.
Qed.

Lemma proof_length_is_log2_witness :
  PlasmaMerkleSumTree example_hash (Some [tx1; tx2; tx3]) = Ok example_tree
  /\ nth_error (levels example_tree) 0 = Some example_bottom
  /\ example_bottom <> []
  /\ (length example_bottom <= 2 ^ (length (levels example_tree) - 1))%nat
  /\ (forall d', (length example_bottom <= 2 ^ d')%nat ->
                 (length (levels example_tree) - 1 <= d')%nat)
  /\ (forall index proof,
         getTransferProof example_tree index = Ok proof ->
         length (inclusionProof proof)
         = (length (levels example_tree) - 1)%nat).
Proof.
  split; [exact example_tree_built|]. split; [exact example_bottom_level|].
  split; [discriminate|].
  apply (proof_length_is_log2 example_hash (parseLeaves example_hash)
           (Some [tx1; tx2; tx3]) example_tree example_bottom
           example_tree_built example_bottom_level).
  discriminate.
Defined.

Lemma sibling_record_round_trip_witness :
  node_ok (mkNode (example_hash [x01]) 6)
  /\ length (data (mkNode (example_hash [x01]) 6)) = 48%nat
  /\ decode_sibling (data (mkNode (example_hash [x01]) 6))
     = mkNode (example_hash [x01]) 6.
Proof.
  assert (Hok : node_ok (mkNode (example_hash [x01]) 6)).
  { split; [apply example_hash_32|]. cbn [sum]. lia. }
  split; [exact Hok|].
  apply (sibling_record_round_trip (mkNode (example_hash [x01]) 6) Hok).
Defined.

Lemma path_reads_index_bits_witness :
  0 <= 5
  /\ (1 < 3)%nat
  /\ path_is_zero (rev (BN.toString2 5 3)) 1 = negb (Z.testbit 5 (Z.of_nat 1)).
Proof.
  split; [lia|]. split; [lia|].
  apply (path_reads_index_bits 5 3 1); lia.
Defined.

Lemma checkTransferProof_reads_low_index_bits_witness :
  0 <= 0
  /\ 0 <= 2
  /\ 0 mod 2 ^ Z.of_nat (length [Some (data (mkNode (example_hash [x02]) 7))])
     = 2 mod 2 ^ Z.of_nat (length [Some (data (mkNode (example_hash [x02]) 7))])
  /\ checkTransferProof example_hash tx1 0
       (mkTransferProof 6 0 [Some (data (mkNode (example_hash [x02]) 7))]
                        stub_signature) []
     = checkTransferProof example_hash tx1 0
         (mkTransferProof 6 2 [Some (data (mkNode (example_hash [x02]) 7))]
                          stub_signature) [].
Proof.
  split; [lia|]. split; [lia|]. split; [reflexivity|].
  apply (checkTransferProof_reads_low_index_bits example_hash tx1 0 [] 6
           [Some (data (mkNode (example_hash [x02]) 7))] stub_signature 0 2);
    [lia|lia|reflexivity].
Defined.

Lemma check_loop_keeps_sums_witness :
  check_loop example_hash ["0"%char] 0 [Some (data emptyLeaf)]
             (mkState (mkNode (example_hash [x01]) 6) 0 0)
  = Ok (mkState (parent example_hash (mkNode (example_hash [x01]) 6)
                        (decode_sibling (data emptyLeaf))) 0 0)
  /\ leftSum (mkState (parent example_hash (mkNode (example_hash [x01]) 6)
                              (decode_sibling (data emptyLeaf))) 0 0)
     = leftSum (mkState (mkNode (example_hash [x01]) 6) 0 0)
  /\ rightSum (mkState (parent example_hash (mkNode (example_hash [x01]) 6)
                               (decode_sibling (data emptyLeaf))) 0 0)
     = rightSum (mkState (mkNode (example_hash [x01]) 6) 0 0).
Proof.
  split; [reflexivity|].
  apply (check_loop_keeps_sums example_hash ["0"%char]
           [Some (data emptyLeaf)] 0). reflexivity.
Defined.

Lemma example_starts (txs : list Transaction) :
  incl txs [tx1; tx2; tx3] ->
  forall tx transfer,
    In tx txs -> In transfer (transfers tx) -> 0 <= start transfer < 2 ^ 53.
Proof.
  intros Hincl tx transfer Htx Htr.
  apply (example_ranges txs Hincl tx transfer Htx Htr).
Qed.

Lemma plasma_nodes_fit_their_records_witness :
  (forall x, length (example_hash x) = 32%nat)
  /\ (forall tx transfer,
         In tx [tx1; tx2; tx3] -> In transfer (transfers tx) ->
         0 <= start transfer < 2 ^ 53)
  /\ PlasmaMerkleSumTree example_hash (Some [tx1; tx2; tx3]) = Ok example_tree
  /\ forall level n,
      In level (levels example_tree) -> In n level ->
      0 <= sum n <= MAX_COIN_ID
      /\ length (digest n) = 32%nat
      /\ decode_sibling (data n) = n.
Proof.
  split; [exact example_hash_32|].
  split; [exact (example_starts [tx1; tx2; tx3] (incl_refl _))|].
  split; [exact example_tree_built|].
  apply (plasma_nodes_fit_their_records example_hash example_hash_32
           [tx1; tx2; tx3] example_tree
           (example_starts [tx1; tx2; tx3] (incl_refl _)) example_tree_built).
Defined.

Lemma example_pair_incl : incl [tx1; tx2] [tx1; tx2; tx3].
Proof.
  intros tx [<-|[<-|[]]]; cbn; auto.
Qed.

Lemma example_pair_siblings :
  forall k level,
    (S k < length (levels example_pair_tree))%nat ->
    nth_error (levels example_pair_tree) k = Some level ->
    exists sib,
      js_index level (Z.lxor (Z.shiftr (Z.of_nat 0) (Z.of_nat k)) 1) = Some sib.
Proof.
  intros k level Hk Hlevel.
  destruct k as [|k]; [|vm_compute in Hk; lia].
  vm_compute in Hlevel. injection Hlevel as <-.
  eexists. vm_compute. reflexivity.
Qed.

Lemma transfer_proof_verifies_witness :
  (forall x, length (example_hash x) = 32%nat)
  /\ (forall tx' transfer',
         In tx' [tx1; tx2] -> In transfer' (transfers tx') ->
         0 <= start transfer' < 2 ^ 53 /\ end_ transfer' <= MAX_COIN_ID)
  /\ PlasmaMerkleSumTree example_hash (Some [tx1; tx2]) = Ok example_pair_tree
  /\ In tx1 [tx1; tx2]
  /\ nth_error (transfers tx1) 0 = Some (mkTransfer 2 3)
  /\ nth_error (sorted_transfers [tx1; tx2]) 0
     = Some (mkParsed (start (mkTransfer 2 3)) (end_ (mkTransfer 2 3))
                      (encoded tx1))
  /\ (forall k level,
         (S k < length (levels example_pair_tree))%nat ->
         nth_error (levels example_pair_tree) k = Some level ->
         exists sib,
           js_index level (Z.lxor (Z.shiftr (Z.of_nat 0) (Z.of_nat k)) 1)
           = Some sib)
  /\ exists proof r,
      getTransferProof example_pair_tree (Z.of_nat 0) = Ok proof
      /\ root example_pair_tree = Ok (Some r)
      /\ checkTransferProof example_hash tx1 (Z.of_nat 0) proof (data r)
         = Ok true.
Proof.
  split; [exact example_hash_32|].
  split; [exact (example_ranges [tx1; tx2] example_pair_incl)|].
  split; [exact example_pair_tree_built|].
  split; [left; reflexivity|]. split; [reflexivity|]. split; [reflexivity|].
  split; [exact example_pair_siblings|].
  apply (transfer_proof_verifies example_hash example_hash_32 [tx1; tx2]
           example_pair_tree 0 0 tx1 (mkTransfer 2 3)
           (example_ranges [tx1; tx2] example_pair_incl)
           example_pair_tree_built).
  - left. reflexivity.
  - reflexivity.
  - reflexivity.
  - exact example_pair_siblings.
Defined.

Lemma transfer_proofs_verify_on_power_of_two_witness :
  (forall x, length (example_hash x) = 32%nat)
  /\ (forall tx' transfer',
         In tx' [tx1; tx2] -> In transfer' (transfers tx') ->
         0 <= start transfer' < 2 ^ 53 /\ end_ transfer' <= MAX_COIN_ID)
  /\ PlasmaMerkleSumTree example_hash (Some [tx1; tx2]) = Ok example_pair_tree
  /\ length (flatten_transfers [tx1; tx2]) = (2 ^ 1)%nat
  /\ In tx2 [tx1; tx2]
  /\ nth_error (transfers tx2) 0 = Some (mkTransfer 6 7)
  /\ nth_error (sorted_transfers [tx1; tx2]) 1
     = Some (mkParsed (start (mkTransfer 6 7)) (end_ (mkTransfer 6 7))
                      (encoded tx2))
  /\ exists proof r,
      getTransferProof example_pair_tree (Z.of_nat 1) = Ok proof
      /\ root example_pair_tree = Ok (Some r)
      /\ checkTransferProof example_hash tx2 (Z.of_nat 0) proof (data r)
         = Ok true.
Proof.
  split; [exact example_hash_32|].
  split; [exact (example_ranges [tx1; tx2] example_pair_incl)|].
  split; [exact example_pair_tree_built|].
  split; [reflexivity|]. split; [right; left; reflexivity|].
  split; [reflexivity|]. split; [reflexivity|].
  apply (transfer_proofs_verify_on_power_of_two example_hash example_hash_32
           [tx1; tx2] example_pair_tree 1 1 0 tx2 (mkTransfer 6 7)
           (example_ranges [tx1; tx2] example_pair_incl)
           example_pair_tree_built).
  - reflexivity.
  - right. left. reflexivity.
  - reflexivity.
  - reflexivity.
Defined.


Lemma checkTransactionProof_stops_at_first_failure_witness :
  Ok false <> Ok true
  /\ (checkTransactionProof example_hash tx1
        [mkTransferProof MAX_COIN_ID 0 [] stub_signature] [] = Ok false
      <-> exists k failing,
          nth_error [mkTransferProof MAX_COIN_ID 0 [] stub_signature] k
          = Some failing
          /\ checkTransferProof example_hash tx1 (Z.of_nat k) failing []
             = Ok false
          /\ forall i earlier,
              (i < k)%nat ->
              nth_error [mkTransferProof MAX_COIN_ID 0 [] stub_signature] i
              = Some earlier ->
              checkTransferProof example_hash tx1 (Z.of_nat i) earlier []
              = Ok true).
Proof.
  assert (Hout : Ok false <> Ok true) by discriminate.
  split; [exact Hout|].
  apply (checkTransactionProof_stops_at_first_failure example_hash tx1
           [mkTransferProof MAX_COIN_ID 0 [] stub_signature] [] (Ok false) Hout).
Defined.


Lemma example_pair_single :
  forall tx', In tx' [tx1; tx2] -> exists transfer', transfers tx' = [transfer'].
Proof.
  intros tx' [<-|[<-|[]]]; eexists; reflexivity.
Qed.

Lemma example_pair_ordered :
  Sorted (fun a b => p_start a <= p_start b) (flatten_transfers [tx1; tx2]).
Proof.
  repeat constructor; vm_compute; discriminate.
Qed.

Lemma example_first_only :
  forall q, (q < length [tx1; tx2])%nat -> (Nat.eqb 0 q = true <-> q = 0%nat).
Proof.
  intros q _. rewrite Nat.eqb_eq. split; intros H; symmetry; exact H.
Qed.

Lemma transaction_proof_verifies_witness :
  (forall x, length (example_hash x) = 32%nat)
  /\ (forall tx' transfer',
         In tx' [tx1; tx2] -> In transfer' (transfers tx') ->
         0 <= start transfer' < 2 ^ 53 /\ end_ transfer' <= MAX_COIN_ID)
  /\ (forall tx', In tx' [tx1; tx2] ->
                  exists transfer', transfers tx' = [transfer'])
  /\ Sorted (fun a b => p_start a <= p_start b) (flatten_transfers [tx1; tx2])
  /\ PlasmaMerkleSumTree example_hash (Some [tx1; tx2]) = Ok example_pair_tree
  /\ nth_error [tx1; tx2] 0 = Some tx1
  /\ transfers tx1 = [mkTransfer 2 3]
  /\ (forall q, (q < length [tx1; tx2])%nat ->
                (Nat.eqb 0 q = true <-> q = 0%nat))
  /\ (forall k level,
         (S k < length (levels example_pair_tree))%nat ->
         nth_error (levels example_pair_tree) k = Some level ->
         exists sib,
           js_index level (Z.lxor (Z.shiftr (Z.of_nat 0) (Z.of_nat k)) 1)
           = Some sib)
  /\ exists proofs r,
      getTransactionProof example_pair_tree (Nat.eqb 0) = Ok proofs
      /\ length proofs = 1%nat
      /\ root example_pair_tree = Ok (Some r)
      /\ checkTransactionProof example_hash tx1 proofs (data r) = Ok true.
Proof.
  split; [exact example_hash_32|].
  split; [exact (example_ranges [tx1; tx2] example_pair_incl)|].
  split; [exact example_pair_single|]. split; [exact example_pair_ordered|].
  split; [exact example_pair_tree_built|]. split; [reflexivity|].
  split; [reflexivity|]. split; [exact example_first_only|].
  split; [exact example_pair_siblings|].
  apply (transaction_proof_verifies example_hash example_hash_32 [tx1; tx2]
           example_pair_tree (Nat.eqb 0) 0 tx1 (mkTransfer 2 3)
           (example_ranges [tx1; tx2] example_pair_incl)
           example_pair_single example_pair_ordered example_pair_tree_built
           eq_refl eq_refl example_first_only example_pair_siblings).
Defined.

Lemma absent_transaction_gets_an_accepted_proof_witness :
  (forall position, (position < length (leaves example_tree))%nat ->
                    (fun _ : nat => false) position = false)
  /\ getTransactionProof example_tree (fun _ => false) = Ok []
  /\ forall transaction root,
      checkTransactionProof example_hash transaction [] root = Ok true.
Proof.
  assert (Habsent : forall position,
             (position < length (leaves example_tree))%nat ->
             (fun _ : nat => false) position = false)
    by (intros position _; reflexivity).
  split; [exact Habsent|].
  apply (absent_transaction_gets_an_accepted_proof example_hash example_tree
           (fun _ => false) Habsent).
Defined.

(** ** The helpers of the tests *)

Section TestHelpers.

Import TxUtils.

Lemma toInt32_range (x : Z) : - 2 ^ 31 <= toInt32 x < 2 ^ 31.
Proof.
  unfold toInt32.
  assert (H := Z.mod_pos_bound x (2 ^ 32) ltac:(lia)).
  destruct (x mod 2 ^ 32 <? 2 ^ 31) eqn:Hlt;
    [apply Z.ltb_lt in Hlt|apply Z.ltb_ge in Hlt]; lia.
Qed.

Lemma toInt32_small (y : Z) : - 2 ^ 31 <= y < 2 ^ 31 -> toInt32 y = y.
Proof.
  intros Hy. unfold toInt32. destruct (Z_lt_dec y 0) as [Hneg|Hpos].
  - assert (Hmod : y mod 2 ^ 32 = y + 2 ^ 32).
    { symmetry. apply (Z.mod_unique y (2 ^ 32) (-1)); lia. }
    rewrite Hmod. replace (y + 2 ^ 32 <? 2 ^ 31) with false
      by (symmetry; apply Z.ltb_ge; lia).
    lia.
  - rewrite Z.mod_small by lia.
    replace (y <? 2 ^ 31) with true by (symmetry; apply Z.ltb_lt; lia).
    reflexivity.
Qed.

(** [x &= 0xFFFFFFFF] leaves the signed 32-bit reading of [x]. *)
Lemma masked_value (x : Z) :
  toInt32 (Z.land (toInt32 x) (toInt32 0xFFFFFFFF)) = toInt32 x.
Proof.
  change (toInt32 0xFFFFFFFF) with (-1). rewrite Z.land_m1_r.
  apply toInt32_small. apply toInt32_range.
Qed.

Lemma slice_last_16_padded (hex : list ascii) :
  (length hex <= 16)%nat ->
  slice_last_16 (repeat "0"%char 16 ++ hex)
  = repeat "0"%char (16 - length hex) ++ hex.
Proof.
  intros Hlen. unfold slice_last_16.
  rewrite length_app, repeat_length.
  replace (16 + length hex - 16)%nat with (length hex) by lia.
  rewrite skipn_app, repeat_length.
  replace (length hex - 16)%nat with 0%nat by lia. cbn [skipn].
  f_equal.
  replace 16%nat with (length hex + (16 - length hex))%nat at 1 by lia.
  rewrite repeat_app.
  rewrite <- (repeat_length "0"%char (length hex)) at 1.
  apply skipn_exact.
Qed.

Lemma hex_digits_length (count : nat) :
  forall z, (length (hex_digits_lsb count z) <= count)%nat.
Proof.
  induction count as [|count IH]; intros z; cbn [hex_digits_lsb length].
  - lia.
  - destruct (z <? 16); cbn [length]; [lia|]. specialize (IH (z / 16)). lia.
Qed.

Lemma hex_length_bound (z : Z) :
  0 < z < 2 ^ 32 -> (hex_length z <= 8)%nat /\ z < 16 ^ Z.of_nat (hex_length z).
Proof.
  intros Hz. unfold hex_length.
  assert (Hlog : 0 <= Z.log2 z < 32).
  { split; [apply Z.log2_nonneg|]. apply Z.log2_lt_pow2; lia. }
  assert (Hq : 0 <= Z.log2 z / 4 < 8)
    by (split; [apply Z.div_pos; lia|apply Z.div_lt_upper_bound; lia]).
  split; [lia|].
  rewrite Nat2Z.inj_succ, Z2Nat.id by lia.
  change 16 with (2 ^ 4). rewrite <- Z.pow_mul_r by lia.
  apply Z.log2_lt_pow2; [lia|].
  assert (Hdm := Z.div_mod (Z.log2 z) 4 ltac:(lia)).
  assert (Hm := Z.mod_pos_bound (Z.log2 z) 4 ltac:(lia)).
  lia.
Qed.

Lemma hex_value_of_digit (d : Z) :
  0 <= d < 16 -> hex_value_of (upper (hex_digit d)) = Some d.
Proof.
  intros Hd.
  assert (Hcases : d = 0 \/ d = 1 \/ d = 2 \/ d = 3 \/ d = 4 \/ d = 5 \/ d = 6
                   \/ d = 7 \/ d = 8 \/ d = 9 \/ d = 10 \/ d = 11 \/ d = 12
                   \/ d = 13 \/ d = 14 \/ d = 15) by lia.
  repeat (destruct Hcases as [->|Hcases]; [reflexivity|]).
  subst d. reflexivity.
Qed.

Lemma parse_hex_from_app (a b : list ascii) :
  forall acc,
    parse_hex_from acc (a ++ b)
    = match parse_hex_from acc a with
      | Some v => parse_hex_from v b
      | None => None
      end.
Proof.
  induction a as [|c a IH]; intros acc; cbn [app parse_hex_from].
  - reflexivity.
  - destruct (hex_value_of c); [apply IH|reflexivity].
Qed.

Lemma parse_hex_from_zeros (k : nat) (acc : Z) :
  parse_hex_from acc (repeat "0"%char k) = Some (acc * 16 ^ Z.of_nat k).
Proof.
  revert acc. induction k as [|k IH]; intros acc.
  - cbn. f_equal. lia.
  - cbn [repeat].
    change (parse_hex_from acc ("0"%char :: repeat "0"%char k))
      with (parse_hex_from (acc * 16 + 0) (repeat "0"%char k)).
    rewrite IH.
    rewrite Nat2Z.inj_succ, Z.pow_succ_r by lia. f_equal. lia.
Qed.

Lemma parse_hex_digits (count : nat) :
  forall z acc,
    0 <= z < 16 ^ Z.of_nat count ->
    exists len,
      parse_hex_from acc (map upper (rev (hex_digits_lsb count z)))
      = Some (acc * 16 ^ Z.of_nat len + z).
Proof.
  induction count as [|count IH]; intros z acc Hz.
  - exists 0%nat. cbn in *. f_equal. lia.
  - cbn [hex_digits_lsb]. destruct (z <? 16) eqn:Hsmall.
    + apply Z.ltb_lt in Hsmall. exists 1%nat.
      cbn [rev app map parse_hex_from].
      rewrite hex_value_of_digit by lia. f_equal.
    + apply Z.ltb_ge in Hsmall.
      rewrite Nat2Z.inj_succ, Z.pow_succ_r in Hz by lia.
      destruct (IH (z / 16) acc) as (len & Hparse).
      { split; [apply Z.div_pos; lia|apply Z.div_lt_upper_bound; lia]. }
      exists (S len). cbn [rev]. rewrite map_app, parse_hex_from_app, Hparse.
      cbn [map parse_hex_from].
      rewrite hex_value_of_digit by (apply Z.mod_pos_bound; lia).
      f_equal. rewrite Nat2Z.inj_succ, Z.pow_succ_r by lia.
      assert (Hdm := Z.div_mod z 16 ltac:(lia)). lia.
Qed.

(** X21.  [int32ToHex] always returns 16 characters, and it reads its
    argument modulo [2^32]. *)
Theorem int32ToHex_sixteen_characters (x : Z) :
  length (int32ToHex x) = 16%nat
  /\ int32ToHex (x + 2 ^ 32) = int32ToHex x.
Proof.
  split.
  - unfold int32ToHex, slice_last_16. rewrite length_skipn, length_app, repeat_length.
    lia.
  - unfold int32ToHex. rewrite !masked_value. unfold toInt32.
    replace (x + 2 ^ 32) with (x + 1 * 2 ^ 32) by lia.
    rewrite Z.mod_add by lia. reflexivity.
Qed.

(** X22.  For [0 <= x < 2^31] the result of [int32ToHex] is the upper-case
    hexadecimal writing of [x], zero-padded: read back in base 16 it gives
    [x]. *)
Theorem int32ToHex_round_trip (x : Z) :
  0 <= x < 2 ^ 31 -> parse_hex (int32ToHex x) = Some x.
Proof.
  intros Hx. unfold int32ToHex, parse_hex. rewrite masked_value.
  rewrite (toInt32_small x) by lia.
  destruct x as [|p|p]; [reflexivity| |lia].
  cbn [toString16].
  destruct (hex_length_bound (Z.pos p) ltac:(lia)) as (Hlen & Hfuel).
  rewrite slice_last_16_padded.
  - rewrite parse_hex_from_app, parse_hex_from_zeros.
    destruct (parse_hex_digits (hex_length (Z.pos p)) (Z.pos p)
                (0 * 16 ^ Z.of_nat
                          (16 - length (map upper
                                          (rev (hex_digits_lsb
                                                  (hex_length (Z.pos p))
                                                  (Z.pos p)))))))
      as (len & ->); [lia|].
    f_equal.
  - rewrite length_map, length_rev.
    generalize (hex_digits_length (hex_length (Z.pos p)) (Z.pos p)). lia.
Qed.

(** X23.  For [2^31 <= x < 2^32] the masked value is negative and the
    result of [int32ToHex] carries a minus sign: it is not a hexadecimal
    writing. *)
Theorem int32ToHex_upper_half_has_minus_sign (x : Z) :
  2 ^ 31 <= x < 2 ^ 32 ->
  In "-"%char (int32ToHex x) /\ parse_hex (int32ToHex x) = None.
Proof.
  intros Hx. unfold int32ToHex, parse_hex. rewrite masked_value.
  assert (Hv : toInt32 x = x - 2 ^ 32).
  { unfold toInt32. rewrite Z.mod_small by lia.
    replace (x <? 2 ^ 31) with false by (symmetry; apply Z.ltb_ge; lia).
    reflexivity. }
  rewrite Hv. destruct (x - 2 ^ 32) as [|p|p] eqn:Hneg; [lia|lia|].
  cbn [toString16 map].
  change (upper "-"%char) with "-"%char.
  destruct (hex_length_bound (Z.pos p) ltac:(lia)) as (Hlen & _).
  rewrite slice_last_16_padded.
  - split.
    + apply in_or_app. right. left. reflexivity.
    + rewrite parse_hex_from_app, parse_hex_from_zeros. reflexivity.
  - cbn [length]. rewrite length_map, length_rev.
    generalize (hex_digits_length (hex_length (Z.pos p)) (Z.pos p)). lia.
Qed.

End TestHelpers.

Section SequentialTransactions.

Import TxUtils.

Variable hash : list byte -> list byte.
Hypothesis hash_32 : forall x, length (hash x) = 32%nat.
Variable encode : list Transfer -> list byte.

Lemma sequential_flatten (l : list nat) :
  flatten_transfers
    (map (fun i => mkTransaction [sequential_transfer i]
                                 (encode [sequential_transfer i])) l)
  = map (sequential_leaf encode) l.
Proof.
  rewrite flatten_transfers_flat_map.
  induction l as [|i l IH]; cbn [map flat_map app]; [reflexivity|].
  rewrite IH. reflexivity.
Qed.

Lemma sequential_sorted (n : nat) :
  forall a,
    Sorted (fun x y => p_start x <= p_start y) (map (sequential_leaf encode) (seq a n)).
Proof.
  induction n as [|n IH]; intros a; cbn [seq map].
  - constructor.
  - constructor; [apply IH|].
    destruct n as [|n]; cbn [seq map]; constructor.
    cbn [sequential_leaf p_start]. lia.
Qed.

Lemma plasma_builds (txs : list Transaction) :
  sorted_transfers txs <> [] ->
  exists t, PlasmaMerkleSumTree hash (Some txs) = Ok t /\ leaves t = txs.
Proof.
  intros Hne. destruct (parseLeaves_returns hash txs Hne) as (parsed & Hparse & _).
  unfold PlasmaMerkleSumTree, MerkleSumTree. rewrite Hparse. cbn [bind].
  eexists. split; reflexivity.
Qed.

(** X24.  The scenario of the test "should verify a random TransferProof" on
    [getSequentialTxs (n)] with [n] a power of two (and [10 n <= 2^53]): the
    tree is built, and for every index [i < n] the transfer proof of leaf
    [i], checked with the transaction [tree.leaves[i]], transfer index 0 and
    the data of the root, verifies. *)
Theorem sequential_txs_proofs_verify (d i : nat) :
  Z.of_nat (2 ^ d) * 10 <= 2 ^ 53 ->
  (i < 2 ^ d)%nat ->
  exists t tx proof r,
    PlasmaMerkleSumTree hash (Some (getSequentialTxs encode (2 ^ d))) = Ok t
    /\ nth_error (leaves t) i = Some tx
    /\ getTransferProof t (Z.of_nat i) = Ok proof
    /\ root t = Ok (Some r)
    /\ checkTransferProof hash tx 0 proof (data r) = Ok true.
Proof.
  intros Hbound Hi.
  set (txs := getSequentialTxs encode (2 ^ d)).
  assert (Hflat : flatten_transfers txs = map (sequential_leaf encode) (seq 0 (2 ^ d)))
    by apply sequential_flatten.
  assert (Hrange : forall tx' transfer',
             In tx' txs -> In transfer' (transfers tx') ->
             0 <= start transfer' < 2 ^ 53 /\ end_ transfer' <= MAX_COIN_ID).
  { intros tx' tr' Htx' Htr'. unfold txs, getSequentialTxs in Htx'.
    apply in_map_iff in Htx'. destruct Htx' as (q & <- & Hq).
    apply in_seq in Hq. cbn [transfers] in Htr'. destruct Htr' as [<-|[]].
    cbn [start end_]. unfold MAX_COIN_ID. lia. }
  assert (Hstarts : forall leaf, In leaf (flatten_transfers txs) ->
                                 0 <= p_start leaf < 2 ^ 53).
  { intros leaf Hin. rewrite Hflat in Hin. apply in_map_iff in Hin.
    destruct Hin as (q & <- & Hq). apply in_seq in Hq.
    cbn [sequential_leaf p_start]. lia. }
  assert (Hsorted : sorted_transfers txs = flatten_transfers txs).
  { apply js_sort_sorted_input.
    apply (Sorted_weaken (fun a b => p_start a <= p_start b)).
    - intros a b Ha Hb Hab. unfold number_le, start_number.
      rewrite !toNumber_exact by (apply Hstarts; assumption). exact Hab.
    - rewrite Hflat. apply sequential_sorted. }
  assert (Hleaf : nth_error (sorted_transfers txs) i = Some (sequential_leaf encode i)).
  { rewrite Hsorted, Hflat, nth_error_map.
    rewrite (nth_error_nth' (seq 0 (2 ^ d)) 0%nat)
      by (rewrite length_seq; exact Hi).
    rewrite seq_nth by exact Hi. reflexivity. }
  assert (Htx : nth_error txs i
                = Some (mkTransaction [sequential_transfer i]
                                      (encode [sequential_transfer i]))).
  { unfold txs, getSequentialTxs. rewrite nth_error_map.
    rewrite (nth_error_nth' (seq 0 (2 ^ d)) 0%nat)
      by (rewrite length_seq; exact Hi).
    rewrite seq_nth by exact Hi. reflexivity. }
  destruct (plasma_builds txs) as (t & Hbuilt & Hleaves).
  { intros Hnil. rewrite Hnil in Hleaf. destruct i; discriminate Hleaf. }
  destruct (power_of_two_proof_verifies hash hash_32 txs t d i 0%nat
              (mkTransaction [sequential_transfer i]
                             (encode [sequential_transfer i]))
              (sequential_transfer i) Hrange Hbuilt)
    as (proof & r & Hproof & Hroot & Hcheck).
  - rewrite Hflat, length_map, length_seq. reflexivity.
  - eapply nth_error_In. exact Htx.
  - reflexivity.
  - exact Hleaf.
  - exists t, (mkTransaction [sequential_transfer i]
                             (encode [sequential_transfer i])), proof, r.
    rewrite Hleaves. auto.
Qed.

End SequentialTransactions.

Lemma int32ToHex_round_trip_witness :
  0 <= 48879 < 2 ^ 31
  /\ parse_hex (TxUtils.int32ToHex 48879) = Some 48879.
Proof.
  split; [lia|]. apply (int32ToHex_round_trip 48879). lia.
Defined.

Lemma int32ToHex_upper_half_has_minus_sign_witness :
  2 ^ 31 <= 0xFFFFFFFF < 2 ^ 32
  /\ In "-"%char (TxUtils.int32ToHex 0xFFFFFFFF)
  /\ parse_hex (TxUtils.int32ToHex 0xFFFFFFFF) = None.
Proof.
  split; [lia|]. apply (int32ToHex_upper_half_has_minus_sign 0xFFFFFFFF). lia.
Defined.

Lemma sequential_txs_proofs_verify_witness :
  (forall x, length (example_hash x) = 32%nat)
  /\ Z.of_nat (2 ^ 2) * 10 <= 2 ^ 53
  /\ (3 < 2 ^ 2)%nat
  /\ exists t tx proof r,
      PlasmaMerkleSumTree example_hash
        (Some (TxUtils.getSequentialTxs (fun _ => [x01]) (2 ^ 2))) = Ok t
      /\ nth_error (leaves t) 3 = Some tx
      /\ getTransferProof t (Z.of_nat 3) = Ok proof
      /\ root t = Ok (Some r)
      /\ checkTransferProof example_hash tx 0 proof (data r) = Ok true.
Proof.
  split; [exact example_hash_32|]. split; [cbn; lia|]. split; [cbn; lia|].
  apply (sequential_txs_proofs_verify example_hash example_hash_32
           (fun _ => [x01]) 2 3); cbn; lia.
Defined.
